(** * email-tracker: the tracking registry and the open-event pipeline

A shallow embedding of [tracker/tracker.go], [models/*.go], the
request helpers of package [utils] and [notification.Sender], with
the properties of the registry, the enrichment pipeline and the
identifier generator that the specification states; then of the
helpers on addresses, of [service.SendTrackedEmail], of package
[config] and of the handlers and the sweeper of [main], with
properties read off the code.

Conventions.
- Go [string] is [string] (a byte sequence); [[]byte] is [list Z]
  with every element in [0, 256).
- [time.Time] is an instant in nanoseconds ([Z]); [time.Duration]
  is a number of nanoseconds ([Z]).  [Before] and [After] are the
  strict orders on instants.  Neither is bounded here: the
  durations of the program (5 s, 10 s, 30 days) are far from the
  ends of [int64].
- A Go map is a [gmap]; reading an absent key yields the zero value
  of the element type, written out at every read.
- A slice of event pointers is a [list TrackingEvent]; the nil slice
  and the empty slice are both [[]] (the code only ever takes
  [len], ranges over, appends to and indexes a slice).  A pointer
  result that may be [nil] is an [option].
- What the outside world decides (the clock, the random source, the
  HTTP reply of the geography service, the SMTP transport) is an
  explicit argument of the function that consults it. *)

From stdpp Require Import gmap strings list fin_maps sorting.
From Stdlib Require Import ZArith Lia Ascii.

Local Open Scope string_scope.
Local Open Scope list_scope.
Local Open Scope Z_scope.

(** ** package models *)

Module models.

Abbreviation Time := Z (only parsing).
Abbreviation Duration := Z (only parsing).

Record TrackingEvent := {
  ID : string;
  TrackingID : string;
  BaseURL : string;
  EmailID : string;
  IPAddress : string;
  UserAgent : string;
  Country : string;
  City : string;
  Region : string;
  ISP : string;
  OpenedAt : Time;
  DeviceType : string;
  Browser : string;
  OS : string
}.

Record GeoLocation := {
  geo_IP : string;
  geo_Country : string;
  geo_City : string;
  geo_Region : string;
  geo_ISP : string;
  geo_Lat : string;
  geo_Lon : string
}.

Record Email := {
  email_ID : string;
  email_From : string;
  email_To : string;
  email_Subject : string;
  email_Body : string;
  email_TrackingID : string;
  SentAt : Time;
  NotifyOnOpen : bool;
  NotifyEmail : string
}.

End models.

Import models.

(** ** package time: the operations the registry uses *)

Module time.

Definition Nanosecond : Duration := 1.
Definition Second : Duration := 1000000000 * Nanosecond.
Definition Hour : Duration := 3600 * Second.

(** A [Duration] is an [int64]: these are its least and its greatest
    value, and [int64] is the wrap-around of its arithmetic. *)
Definition minDuration : Duration := - 2 ^ 63.
Definition maxDuration : Duration := 2 ^ 63 - 1.
Definition int64 (z : Z) : Z := (z + 2 ^ 63) mod 2 ^ 64 - 2 ^ 63.

(** The unary minus of Go on a [Duration]: the opposite of
    [minDuration] is not an [int64] and wraps to [minDuration]. *)
Definition Neg (d : Duration) : Duration := int64 (- d).

(** [Time.Add] is exact: an instant has a wider range than a
    [Duration]. *)
Definition Add (t : Time) (d : Duration) : Time := t + d.
Definition Before (t u : Time) : bool := t <? u.
Definition After (t u : Time) : bool := u <? t.

End time.

(** ** package tracker: the registry *)

(** [Tracker] keeps the two maps of the Go struct.  The fields
    [notificationSender] and [pixelTemplate] are collaborators that no
    registry operation below reads; the sender is an argument of
    [TrackEmailOpen].  The message table maps to [*models.Email]: its
    one writer, [SendTrackedEmail], registers the address of a struct
    it has just built, so an entry is a message, never [nil]. *)
Record Tracker := {
  trackingData : gmap string Email;
  trackingEvents : gmap string (list TrackingEvent)
}.

Definition NewTracker : Tracker :=
  {| trackingData := ∅; trackingEvents := ∅ |}.

(** [m[k]] on a map of slices: the nil slice for an absent key. *)
Definition events_at (m : gmap string (list TrackingEvent)) (k : string)
  : list TrackingEvent :=
  default [] (m !! k).

Definition RegisterEmail (t : Tracker) (email : Email) (trackingID : string)
  : Tracker :=
  {| trackingData := <[trackingID := email]> (trackingData t);
     trackingEvents := trackingEvents t |}.

Definition GetTrackingStats (t : Tracker) (trackingID : string)
  : option TrackingEvent :=
  match trackingEvents t !! trackingID with
  | Some events =>
      if (0 <? length events)%nat
      then events !! (length events - 1)%nat
      else None
  | None => None
  end.

Definition GetAllTrackingEvents (t : Tracker) (trackingID : string)
  : list TrackingEvent :=
  match trackingEvents t !! trackingID with
  | Some events => events
  | None => []
  end.

(** The first loop of [CleanupOldEntries]: one iteration for the entry
    [(id, email)] of the message table. *)
Definition evict_message (cutoff : Time) (id : string) (email : Email)
    (t : Tracker) : Tracker :=
  if time.Before (SentAt email) cutoff
  then {| trackingData := delete id (trackingData t);
          trackingEvents := delete id (trackingEvents t) |}
  else t.

(** The inner loop of the second loop: the events opened after the
    cutoff, in their order. *)
Fixpoint recent_events (cutoff : Time) (events : list TrackingEvent)
  : list TrackingEvent :=
  match events with
  | [] => []
  | event :: rest =>
      if time.After (OpenedAt event) cutoff
      then event :: recent_events cutoff rest
      else recent_events cutoff rest
  end.

(** One iteration of the second loop, for the entry
    [(trackingID, events)] of the event table. *)
Definition trim_history (cutoff : Time) (trackingID : string)
    (events : list TrackingEvent) (m : gmap string (list TrackingEvent))
  : gmap string (list TrackingEvent) :=
  <[trackingID := recent_events cutoff events]> m.

(** [CleanupOldEntries], with the reading of [time.Now()] as [now];
    the cutoff is [time.Now().Add(-maxAge)], the minus being the one of
    [int64].  Each [range] loop is a fold over the entries the map holds when the
    loop starts: an iteration of either loop deletes or overwrites only
    the key it is visiting, so no entry is added or changed ahead of its
    visit. *)
Definition CleanupOldEntries (now : Time) (maxAge : Duration) (t : Tracker)
  : Tracker :=
  let cutoff := time.Add now (time.Neg maxAge) in
  let t1 := map_fold (evict_message cutoff) t (trackingData t) in
  {| trackingData := trackingData t1;
     trackingEvents :=
       map_fold (trim_history cutoff) (trackingEvents t1) (trackingEvents t1) |}.

(** ** The Go library functions the request helpers call

[net.ParseIP] and the predicates on [net.IP], [net.SplitHostPort],
[strings.TrimSpace] and [strings.ToLower] belong to the Go standard
library, not to this repository: the helpers are written over this
interface.  [SplitHostPort] yields [None] where Go returns an
error. *)
Class GoLib := {
IP : Type;
ParseIP : string → option IP;
IP_String : IP → string;
IsPrivate : IP → bool;
IsLoopback : IP → bool;
IsMulticast : IP → bool;
SplitHostPort : string → option (string * string);
TrimSpace : string → string;
ToLower : string → string
}.

(** ** package strings and net/http: what is written out *)

Module strings.

(** [strings.Split(s, sep)] for a one-byte separator: the pieces
    between the separators, one more than there are separators. *)
Fixpoint Split (s : string) (sep : ascii) : list string :=
  match s with
  | EmptyString => [EmptyString]
  | String a rest =>
      if Ascii.eqb a sep then EmptyString :: Split rest sep
      else match Split rest sep with
           | piece :: pieces => String a piece :: pieces
           | [] => [String a EmptyString]
           end
  end.

Fixpoint HasPrefix (s prefix : string) : bool :=
  match prefix, s with
  | EmptyString, _ => true
  | String p prefix', String a s' => Ascii.eqb a p && HasPrefix s' prefix'
  | String _ _, EmptyString => false
  end.

Fixpoint Contains (s substr : string) : bool :=
  HasPrefix s substr
  || match s with
     | EmptyString => false
     | String _ rest => Contains rest substr
     end.

End strings.

Module http.

Definition is_lower (a : ascii) : bool :=
  (97 <=? nat_of_ascii a)%nat && (nat_of_ascii a <=? 122)%nat.
Definition is_upper (a : ascii) : bool :=
  (65 <=? nat_of_ascii a)%nat && (nat_of_ascii a <=? 90)%nat.
Definition to_upper (a : ascii) : ascii :=
  if is_lower a then ascii_of_nat (nat_of_ascii a - 32) else a.
Definition to_lower (a : ascii) : ascii :=
  if is_upper a then ascii_of_nat (nat_of_ascii a + 32) else a.

(** [textproto.CanonicalMIMEHeaderKey] on a key made of letters,
    digits and hyphens: the first letter and every letter after a
    hyphen in upper case, the others in lower case. *)
Fixpoint canonical (upper : bool) (key : string) : string :=
  match key with
  | EmptyString => EmptyString
  | String a rest =>
      String (if upper then to_upper a else to_lower a)
             (canonical (Ascii.eqb a "-") rest)
  end.
Definition CanonicalHeaderKey (key : string) : string := canonical true key.

(** [http.Header]: canonical key to the values received under it. *)
Record Request := {
  Header : gmap string (list string);
  RemoteAddr : string
}.

(** [Header.Get]: the first value under the key, [""] when none. *)
Definition Header_Get (h : gmap string (list string)) (key : string) : string :=
  match h !! CanonicalHeaderKey key with
  | Some (v :: _) => v
  | _ => EmptyString
  end.

(** [Header.Set]: the key now holds the one value. *)
Definition Header_Set (h : gmap string (list string)) (key value : string)
  : gmap string (list string) :=
  <[CanonicalHeaderKey key := [value]]> h.

Definition UserAgent (r : Request) : string := Header_Get (Header r) "User-Agent".

(** What a handler has done to its [http.ResponseWriter]. *)
Record ResponseWriter := {
  rw_Header : gmap string (list string);
  rw_Body : list Z
}.

Definition NewResponseWriter : ResponseWriter :=
  {| rw_Header := ∅; rw_Body := [] |}.

Definition Write (w : ResponseWriter) (data : list Z) : ResponseWriter :=
  {| rw_Header := rw_Header w; rw_Body := rw_Body w ++ data |}.

Definition SetHeader (w : ResponseWriter) (key value : string) : ResponseWriter :=
  {| rw_Header := Header_Set (rw_Header w) key value; rw_Body := rw_Body w |}.

End http.

(** ** package utils *)

Module utils.

Definition hex_digit (n : Z) : ascii :=
  if n <? 10 then ascii_of_nat (Z.to_nat (48 + n))
  else ascii_of_nat (Z.to_nat (87 + n)).

(** The verb [%x] on a byte slice: two lower-case digits per byte. *)
Fixpoint hex (bs : list Z) : string :=
  match bs with
  | [] => EmptyString
  | b :: rest =>
      String (hex_digit (Z.shiftr b 4)) (String (hex_digit (Z.land b 15)) (hex rest))
  end.

(** [b[lo:hi]] on a slice long enough. *)
Definition slice (b : list Z) (lo hi : nat) : list Z := take (hi - lo) (drop lo b).

(** [GenerateUUID], with [b] the 16-byte buffer as [rand.Read] left
    it (its error is ignored by the code). *)
Definition GenerateUUID (b : list Z) : string :=
  hex (slice b 0 4) +:+ "-" +:+ hex (slice b 4 6) +:+ "-" +:+ hex (slice b 6 8)
  +:+ "-" +:+ hex (slice b 8 10) +:+ "-" +:+ hex (drop 10 b).

Record DeviceInfo := {
  dev_DeviceType : string;
  dev_Browser : string;
  dev_OS : string
}.

Section with_lib.

Context `{GoLib}.

(** Whether the candidate [ipStr] of the forwarded-for chain is
    accepted: it parses, and the address is neither private, nor
    loopback, nor multicast. *)
Definition forwarded_ok (ipStr : string) : bool :=
  match ParseIP ipStr with
  | Some ip => negb (IsPrivate ip) && negb (IsLoopback ip) && negb (IsMulticast ip)
  | None => false
  end.

(** The loop [for i := len(parts) - 1; i >= 0; i--] with [n] the
    number of indices still to visit: it visits [n - 1], ..., [0]
    and returns at the first accepted candidate. *)
Fixpoint scan_forwarded (parts : list string) (n : nat) : option string :=
  match n with
  | O => None
  | S i =>
      let ipStr := TrimSpace (default EmptyString (parts !! i)) in
      if forwarded_ok ipStr then Some ipStr else scan_forwarded parts i
  end.

(** Step 4 of [GetClientIP]. *)
Definition peer_address (remoteAddr : string) : string :=
  match SplitHostPort remoteAddr with
  | Some (host, _) => host
  | None => remoteAddr
  end.

(** Step 3 onwards. *)
Definition from_forwarded (r : http.Request) : string :=
  let xff := http.Header_Get (http.Header r) "X-Forwarded-For" in
  match
    (if String.eqb xff "" then None
     else let parts := strings.Split xff "," in
          scan_forwarded parts (length parts))
  with
  | Some ipStr => ipStr
  | None => peer_address (http.RemoteAddr r)
  end.

(** Step 2 onwards. *)
Definition from_real_ip (r : http.Request) : string :=
  let real := http.Header_Get (http.Header r) "X-Real-IP" in
  match (if String.eqb real "" then None else ParseIP real) with
  | Some ip => IP_String ip
  | None => from_forwarded r
  end.

Definition GetClientIP (r : http.Request) : string :=
  let cf := http.Header_Get (http.Header r) "CF-Connecting-IP" in
  match (if String.eqb cf "" then None else ParseIP cf) with
  | Some ip => IP_String ip
  | None => from_real_ip r
  end.

Definition device_type (ua : string) : string :=
  if strings.Contains ua "mobile" then "Mobile"
  else if strings.Contains ua "tablet" then "Tablet"
  else "Desktop".

Definition browser (ua : string) : string :=
  if strings.Contains ua "chrome" then "Chrome"
  else if strings.Contains ua "firefox" then "Firefox"
  else if strings.Contains ua "safari" && negb (strings.Contains ua "chrome")
  then "Safari"
  else if strings.Contains ua "edge" then "Edge"
  else if strings.Contains ua "opera" then "Opera"
  else "Unknown".

Definition operating_system (ua : string) : string :=
  if strings.Contains ua "windows" then "Windows"
  else if strings.Contains ua "mac os" then "macOS"
  else if strings.Contains ua "linux" then "Linux"
  else if strings.Contains ua "android" then "Android"
  else if strings.Contains ua "iphone" || strings.Contains ua "ipad" then "iOS"
  else "Unknown".

Definition ParseUserAgent (userAgent : string) : DeviceInfo :=
  let ua := ToLower userAgent in
  {| dev_DeviceType := device_type ua;
     dev_Browser := browser ua;
     dev_OS := operating_system ua |}.

End with_lib.

(** The anonymous struct that [getGeoFromIPAPI] decodes the reply
    into; [Lat] and [Lon] are held as their [%f] renderings. *)
Record IPAPIData := {
  api_Status : string;
  api_Country : string;
  api_Region : string;
  api_City : string;
  api_ISP : string;
  api_Lat : string;
  api_Lon : string
}.

(** What the request to the geography service comes to: [client.Get]
    fails (a network error, or the 5 s timeout of the client),
    reading the body fails, [json.Unmarshal] rejects the body, or it
    decodes the body. *)
Inductive HTTPReply :=
| GetFailed (err : string)
| ReadFailed (err : string)
| Malformed (err : string)
| Decoded (data : IPAPIData).

Definition client_Timeout : Duration := 5 * time.Second.

Definition getGeoFromIPAPI (ip : string) (reply : HTTPReply)
  : GeoLocation + string :=
  match reply with
  | GetFailed err => inr err
  | ReadFailed err => inr err
  | Malformed err => inr err
  | Decoded data =>
      if negb (String.eqb (api_Status data) "success")
      then inr "API returned non-success status"
      else inl {| geo_IP := ip;
                  geo_Country := api_Country data;
                  geo_City := api_City data;
                  geo_Region := api_Region data;
                  geo_ISP := api_ISP data;
                  geo_Lat := api_Lat data;
                  geo_Lon := api_Lon data |}
  end.

(** [GetGeoLocation] returns a location in both cases, and an error
    next to it in the second. *)
Definition GetGeoLocation (ip : string) (reply : HTTPReply)
  : GeoLocation * option string :=
  match getGeoFromIPAPI ip reply with
  | inl location => (location, None)
  | inr _ =>
      ({| geo_IP := ip; geo_Country := ""; geo_City := ""; geo_Region := "";
          geo_ISP := ""; geo_Lat := ""; geo_Lon := "" |},
       Some "could not determine location")
  end.

End utils.

(** ** package notification *)

Module notification.

(** A value of the template data [map[string]interface{}]: a string,
    the instant rendered by [Format("2006-01-02 15:04:05")], or the
    year of the instant. *)
Inductive Value :=
| VString (s : string)
| VFormat (t : Time)
| VYear (t : Time).

(** What the SMTP transport does with the message handed to
    [SendWithStartTLS]: it returns after [after] nanoseconds, with an
    error or without, or it never returns. *)
Inductive Transport :=
| Replies (after : Duration) (err : option string)
| Hangs.

(** The world [SendNotification] runs in: whether the template file
    parses, whether it executes on the data, the transport, and which
    ready case the [select] takes when the deadline and the reply fall
    on the same instant. *)
Record SenderWorld := {
  template_err : option string;
  execute_err : option string;
  transport : Transport;
  select_Done_on_tie : bool
}.

Definition cancelled : string :=
  "notification cancelled by context: context deadline exceeded".

Definition dispatch_result (err : option string) : option string :=
  match err with
  | Some e => Some ("smtp dispatch failed: " +:+ e)
  | None => None
  end.

(** [Sender.SendNotification] under a context whose deadline is
    [deadline] nanoseconds away: the error returned ([None] for
    [nil]) and the time the call took.  Parsing and executing the
    template take no time; the [select] returns at the earlier of the
    deadline and the reply of the transport, which runs in a
    goroutine of its own. *)
Definition SendNotification (world : SenderWorld) (deadline : Duration)
    (to : list string) (subject : string) (data : gmap string Value)
  : option string * Duration :=
  match template_err world with
  | Some e => (Some ("could not find or parse template file: " +:+ e), 0)
  | None =>
      match execute_err world with
      | Some e => (Some ("failed to inject data into template: " +:+ e), 0)
      | None =>
          match transport world with
          | Hangs => (Some cancelled, deadline)
          | Replies after err =>
              if after <? deadline then (dispatch_result err, after)
              else if deadline <? after then (Some cancelled, deadline)
              else if select_Done_on_tie world then (Some cancelled, deadline)
              else (dispatch_result err, after)
          end
      end
  end.

End notification.

(** The interface [NotificationSender]: a sender is its one method,
    from the time left to the deadline of the context and the message
    to the error returned and the time the call took. *)
Abbreviation NotificationSender :=
  (Duration → list string → string → gmap string notification.Value
   → option string * Duration) (only parsing).

(** ** package tracker: recording an open *)

Definition gifData : list Z :=
  [ 0x47; 0x49; 0x46; 0x38; 0x39; 0x61;
    0x01; 0x00; 0x01; 0x00; 0x80; 0x00;
    0x00; 0xff; 0xff; 0xff; 0x00; 0x00;
    0x00; 0x2c; 0x00; 0x00; 0x00; 0x00;
    0x01; 0x00; 0x01; 0x00; 0x00; 0x02;
    0x02; 0x44; 0x01; 0x00; 0x3b ].

(** What [fmt.Printf] is called with. *)
Inductive LogLine :=
| LogGeoError (err : string)
| LogOpened (trackingID baseURL ip city country : string)
| LogNotifyFailed (err : string).

(** What one call of [TrackEmailOpen] reads from outside: the reply of
    the geography service, the buffer of [GenerateUUID], and the
    reading of [time.Now()] at line 102. *)
Record OpenWorld := {
  geo_reply : utils.HTTPReply;
  uuid_bytes : list Z;
  now : Time
}.

(** What one call of [TrackEmailOpen] leaves behind: the registry, the
    response writer, the instant at which the body was written, the
    error of the notification when one was sent, and the lines
    printed. *)
Record OpenResult := {
  res_tracker : Tracker;
  res_writer : http.ResponseWriter;
  res_written_at : Time;
  res_notified : option (option string);
  res_log : list LogLine
}.

Definition notify_timeout : Duration := 10 * time.Second.

Section track_open.

Context `{GoLib}.

(** Lines 75 to 106, given the result of the message lookup of line
    86: the event, and the error of the geography lookup. *)
Definition new_event (r : http.Request) (trackingID baseURL : string)
    (world : OpenWorld) (emailID : string) : TrackingEvent * option string :=
  let ip := utils.GetClientIP r in
  let userAgent := http.UserAgent r in
  let '(geoInfo, err) := utils.GetGeoLocation ip (geo_reply world) in
  let deviceInfo := utils.ParseUserAgent userAgent in
  ({| ID := utils.GenerateUUID (uuid_bytes world);
      TrackingID := trackingID;
      EmailID := emailID;
      BaseURL := baseURL;
      IPAddress := ip;
      UserAgent := userAgent;
      Country := geo_Country geoInfo;
      City := geo_City geoInfo;
      Region := geo_Region geoInfo;
      ISP := geo_ISP geoInfo;
      OpenedAt := now world;
      DeviceType := utils.dev_DeviceType deviceInfo;
      Browser := utils.dev_Browser deviceInfo;
      OS := utils.dev_OS deviceInfo |}, err).

(** Line 85 to 89: [""] unless the message table holds the key. *)
Definition owner_of (t : Tracker) (trackingID : string) : string :=
  match trackingData t !! trackingID with
  | Some email => email_ID email
  | None => ""
  end.

(** Line 108. *)
Definition append_event (t : Tracker) (trackingID : string) (event : TrackingEvent)
  : Tracker :=
  {| trackingData := trackingData t;
     trackingEvents :=
       <[trackingID := events_at (trackingEvents t) trackingID ++ [event]]>
         (trackingEvents t) |}.

Definition notification_subject (email : Email) : string :=
  "📧 Email Opened: " +:+ email_Subject email.

Definition notification_data (email : Email) (event : TrackingEvent)
  : gmap string notification.Value :=
  let V := notification.VString in
  list_to_map
    [ ("EmailSubject", V (email_Subject email));
      ("Recipient", V (email_To email));
      ("OpenedAt", notification.VFormat (OpenedAt event));
      ("IPAddress", V (IPAddress event));
      ("Location", V (City event +:+ ", " +:+ Region event +:+ ", " +:+ Country event));
      ("Device", V (DeviceType event));
      ("Browser", V (Browser event));
      ("OS", V (OS event));
      ("ISP", V (ISP event));
      ("TrackingURL", V (BaseURL event +:+ "/track/" +:+ TrackingID event));
      ("BaseURL", V (BaseURL event));
      ("Year", notification.VYear (OpenedAt event)) ].

(** Lines 139 to 143. *)
Definition serve_pixel (w : http.ResponseWriter) : http.ResponseWriter :=
  let w := http.SetHeader w "Content-Type" "image/gif" in
  let w := http.SetHeader w "Cache-Control" "no-cache, no-store, must-revalidate" in
  let w := http.SetHeader w "Pragma" "no-cache" in
  let w := http.SetHeader w "Expires" "0" in
  http.Write w gifData.

(** Lines 114 to 136: the call of the sender when the message exists
    and asked for it.  The call is made in the handler itself: the
    handler goes on when the call returns, [elapsed] later. *)
Definition notify_open (sender : NotificationSender) (t : Tracker)
    (trackingID : string) (event : TrackingEvent)
  : option (option string) * Duration :=
  match trackingData t !! trackingID with
  | Some email =>
      if NotifyOnOpen email then
        let '(err, elapsed) :=
          sender notify_timeout [NotifyEmail email]
                 (notification_subject email) (notification_data email event) in
        (Some err, elapsed)
      else (None, 0)
  | None => (None, 0)
  end.

Definition TrackEmailOpen (sender : NotificationSender) (t : Tracker)
    (w : http.ResponseWriter) (r : http.Request) (trackingID baseURL : string)
    (world : OpenWorld) : OpenResult :=
  let '(event, geoErr) :=
    new_event r trackingID baseURL world (owner_of t trackingID) in
  let t' := append_event t trackingID event in
  let '(sent, elapsed) := notify_open sender t trackingID event in
  {| res_tracker := t';
     res_writer := serve_pixel w;
     res_written_at := time.Add (now world) elapsed;
     res_notified := sent;
     res_log :=
       match geoErr with Some e => [LogGeoError e] | None => [] end
       ++ [LogOpened trackingID baseURL (IPAddress event) (City event) (Country event)]
       ++ match sent with
          | Some (Some e) => [LogNotifyFailed e]
          | _ => []
          end |}.

End track_open.

(** ** encoding/base64 and crypto/rand, as [GenerateTrackingID] uses them *)

Module base64.

Definition encodeURL : string :=
  "ABCDEFGHIJKLMNOPQRSTUVWXYZabcdefghijklmnopqrstuvwxyz0123456789-_".

Definition StdPadding : ascii := "=".

(** [enc.encode[i]] for the URL encoding. *)
Definition encode (i : Z) : ascii :=
  match String.get (Z.to_nat i) encodeURL with
  | Some a => a
  | None => "A"%char
  end.

(** [URLEncoding.EncodeToString]: three bytes to four characters; a
    remainder of one or two bytes is padded to four characters. *)
Fixpoint EncodeToString (src : list Z) : string :=
  match src with
  | [] => EmptyString
  | [b0] =>
      let val := Z.shiftl b0 16 in
      String (encode (Z.land (Z.shiftr val 18) 0x3F))
        (String (encode (Z.land (Z.shiftr val 12) 0x3F))
          (String StdPadding (String StdPadding EmptyString)))
  | [b0; b1] =>
      let val := Z.lor (Z.shiftl b0 16) (Z.shiftl b1 8) in
      String (encode (Z.land (Z.shiftr val 18) 0x3F))
        (String (encode (Z.land (Z.shiftr val 12) 0x3F))
          (String (encode (Z.land (Z.shiftr val 6) 0x3F))
            (String StdPadding EmptyString)))
  | b0 :: b1 :: b2 :: rest =>
      let val := Z.lor (Z.lor (Z.shiftl b0 16) (Z.shiftl b1 8)) b2 in
      String (encode (Z.land (Z.shiftr val 18) 0x3F))
        (String (encode (Z.land (Z.shiftr val 12) 0x3F))
          (String (encode (Z.land (Z.shiftr val 6) 0x3F))
            (String (encode (Z.land val 0x3F))
              (EncodeToString rest))))
  end.

(** The position of a character in the alphabet. *)
Fixpoint index_from (s : string) (a : ascii) (i : Z) : option Z :=
  match s with
  | EmptyString => None
  | String c rest => if Ascii.eqb c a then Some i else index_from rest a (i + 1)
  end.
Definition index_of (a : ascii) : option Z := index_from encodeURL a 0.

(** Letters, digits, hyphen and underscore: characters that stand for
    themselves in every part of a URL. *)
Definition unreserved (a : ascii) : bool :=
  let n := nat_of_ascii a in
  ((48 <=? n) && (n <=? 57) || (65 <=? n) && (n <=? 90) || (97 <=? n) && (n <=? 122)
   || (n =? 45) || (n =? 95))%nat.

Fixpoint all_chars (p : ascii → bool) (s : string) : bool :=
  match s with
  | EmptyString => true
  | String a rest => p a && all_chars p rest
  end.

Definition sextets : list Z := Z.of_nat <$> seq 0 64.

End base64.

Definition is_byte (b : Z) : Prop := 0 ≤ b < 256.

(** [crypto/rand]: a source either fails or has a stream of bytes to
    give; [Read] on a buffer of [n] bytes returns the error, or fills
    the buffer with the first [n] bytes of the stream. *)
Record RandSource := {
  rand_err : option string;
  rand_stream : nat → Byte.byte
}.

Definition rand_Read (rand : RandSource) (n : nat) : list Z + string :=
  match rand_err rand with
  | Some err => inr err
  | None => inl ((λ i, Z.of_N (Byte.to_N (rand_stream rand i))) <$> seq 0 n)
  end.

Definition GenerateTrackingID (rand : RandSource) : string * option string :=
  match rand_Read rand 32 with
  | inr err => ("", Some err)
  | inl b => (base64.EncodeToString b, None)
  end.

(** ** Request handlers that run at the same time

The registry has no lock: the handlers of the HTTP server and the
sweeper all use the one [Tracker].  A handler inside
[TrackEmailOpen] touches the registry three times, in this order:
it reads the message table (line 86), it reads the history of its
identifier (the right-hand side of line 108), and it stores the
extended history (the assignment of line 108).  Between two of
these any other handler may run. *)

Inductive Handler :=
| AtLookup (trackingID : string) (mk : string → TrackingEvent)
| AtLoad (trackingID : string) (event : TrackingEvent)
| AtStore (trackingID : string) (extended : list TrackingEvent)
| Finished.

(** One registry access of a handler. *)
Definition step_handler (h : Handler) (t : Tracker) : Handler * Tracker :=
  match h with
  | AtLookup id mk =>
      let emailID := match trackingData t !! id with
                     | Some email => email_ID email
                     | None => ""
                     end in
      (AtLoad id (mk emailID), t)
  | AtLoad id event =>
      (AtStore id (events_at (trackingEvents t) id ++ [event]), t)
  | AtStore id extended =>
      (Finished,
       {| trackingData := trackingData t;
          trackingEvents := <[id := extended]> (trackingEvents t) |})
  | Finished => (Finished, t)
  end.

(** The handler the schedule names takes its next step. *)
Definition step_pool (i : nat) (c : list Handler * Tracker) : list Handler * Tracker :=
  match c.1 !! i with
  | Some h =>
      let '(h', t') := step_handler h c.2 in
      (<[i := h']> c.1, t')
  | None => c
  end.

Fixpoint run (schedule : list nat) (c : list Handler * Tracker)
  : list Handler * Tracker :=
  match schedule with
  | [] => c
  | i :: rest => run rest (step_pool i c)
  end.

(** The schedule on which handler 0 runs to its end, then handler 1,
    and so on: the handlers one after another. *)
Definition serial (first count : nat) : list nat :=
  flat_map (λ i, [i; i; i]) (seq first count).

Definition all_finished (hs : list Handler) : Prop :=
  Forall (λ h, h = Finished) hs.

(** ** An instance of the library on dotted-decimal addresses

The helpers are evaluated on concrete requests with this instance:
[ParseIP] on the dotted-decimal form of an IPv4 address (no leading
zero in a field, as Go reads it), [SplitHostPort] as package [net]
writes it, [TrimSpace] and [ToLower] on ASCII. *)

Module ipv4.

Definition digit_of (a : ascii) : option Z :=
  let n := Z.of_nat (nat_of_ascii a) in
  if (48 <=? n) && (n <=? 57) then Some (n - 48) else None.

Definition digit (n : Z) : ascii := ascii_of_nat (Z.to_nat (48 + n)).

(** One field: one to three digits, no leading zero, at most 255. *)
Definition parse_field (s : string) : option Z :=
  match s with
  | String a EmptyString => digit_of a
  | String a (String b EmptyString) =>
      x ← digit_of a; y ← digit_of b;
      if x =? 0 then None else Some (10 * x + y)
  | String a (String b (String c EmptyString)) =>
      x ← digit_of a; y ← digit_of b; z ← digit_of c;
      if (x =? 0) || (255 <? 100 * x + 10 * y + z) then None
      else Some (100 * x + 10 * y + z)
  | _ => None
  end.

Definition ParseIP (s : string) : option (list Z) :=
  match strings.Split s "." with
  | [a; b; c; d] =>
      a ← parse_field a; b ← parse_field b; c ← parse_field c; d ← parse_field d;
      Some [a; b; c; d]
  | _ => None
  end.

Definition field_string (n : Z) : string :=
  if n <? 10 then String (digit n) EmptyString
  else if n <? 100 then String (digit (n / 10)) (String (digit (n mod 10)) EmptyString)
  else String (digit (n / 100))
         (String (digit (n / 10 mod 10)) (String (digit (n mod 10)) EmptyString)).

Definition IP_String (ip : list Z) : string :=
  match ip with
  | [a; b; c; d] =>
      field_string a +:+ "." +:+ field_string b +:+ "." +:+ field_string c
      +:+ "." +:+ field_string d
  | _ => "<nil>"
  end.

Definition IsPrivate (ip : list Z) : bool :=
  match ip with
  | [a; b; _; _] =>
      (a =? 10) || ((a =? 172) && (Z.land b 0xf0 =? 16)) || ((a =? 192) && (b =? 168))
  | _ => false
  end.

Definition IsLoopback (ip : list Z) : bool :=
  match ip with
  | [a; _; _; _] => a =? 127
  | _ => false
  end.

Definition IsMulticast (ip : list Z) : bool :=
  match ip with
  | [a; _; _; _] => Z.land a 0xf0 =? 0xe0
  | _ => false
  end.

Fixpoint IndexByte (s : string) (c : ascii) : option nat :=
  match s with
  | EmptyString => None
  | String a rest =>
      if Ascii.eqb a c then Some O else S <$> IndexByte rest c
  end.

Fixpoint LastIndexByte (s : string) (c : ascii) : option nat :=
  match s with
  | EmptyString => None
  | String a rest =>
      match LastIndexByte rest c with
      | Some i => Some (S i)
      | None => if Ascii.eqb a c then Some O else None
      end
  end.

(** [s[lo:hi]] and [s[lo:]]. *)
Definition sub (s : string) (lo hi : nat) : string := String.substring lo (hi - lo) s.
Definition from (s : string) (lo : nat) : string :=
  String.substring lo (String.length s - lo) s.

Definition SplitHostPort (hostport : string) : option (string * string) :=
  match LastIndexByte hostport ":" with
  | None => None
  | Some i =>
      let bracketed :=
        match hostport with String "[" _ => true | _ => false end in
      match
        (if bracketed then
           match IndexByte hostport "]" with
           | None => None
           | Some e =>
               if (S e =? String.length hostport)%nat then None
               else if (S e =? i)%nat then Some (sub hostport 1 e, 1%nat, S e)
               else None
           end
         else
           let host := sub hostport 0 i in
           match IndexByte host ":" with
           | Some _ => None
           | None => Some (host, O, O)
           end)
      with
      | None => None
      | Some (host, j, k) =>
          match IndexByte (from hostport j) "[", IndexByte (from hostport k) "]" with
          | None, None => Some (host, from hostport (S i))
          | _, _ => None
          end
      end
  end.

Definition is_space (a : ascii) : bool :=
  let n := nat_of_ascii a in
  (n =? 32)%nat || ((9 <=? n)%nat && (n <=? 13)%nat).

Fixpoint trim_left (s : string) : string :=
  match s with
  | String a rest => if is_space a then trim_left rest else s
  | EmptyString => EmptyString
  end.

Fixpoint trim_right (s : string) : string :=
  match s with
  | EmptyString => EmptyString
  | String a rest =>
      match trim_right rest with
      | EmptyString => if is_space a then EmptyString else String a EmptyString
      | rest' => String a rest'
      end
  end.

Definition TrimSpace (s : string) : string := trim_right (trim_left s).

Fixpoint ToLower (s : string) : string :=
  match s with
  | EmptyString => EmptyString
  | String a rest => String (http.to_lower a) (ToLower rest)
  end.

#[export] Instance lib : GoLib :=
  Build_GoLib (list Z) ParseIP IP_String IsPrivate IsLoopback IsMulticast
              SplitHostPort TrimSpace ToLower.

End ipv4.

(** ** The address of the client, in the words of the specification *)

Section client_ip_spec.

Context `{GoLib}.





End client_ip_spec.

(** ** The statements the properties below are about *)

(** The reading of C5: a registry without the key and a registry
    holding the key with an empty history get different answers. *)
Definition miss_is_distinct (absent present : Tracker) (trackingID : string) : Prop :=
  trackingEvents absent !! trackingID = None →
  trackingEvents present !! trackingID = Some [] →
  GetTrackingStats absent trackingID ≠ GetTrackingStats present trackingID.

(** The reading of C9 for the text form: when the source gives its
    bytes, every character of the identifier is a letter, a digit, a
    hyphen or an underscore. *)
Definition identifier_url_safe (rand : RandSource) : Prop :=
  rand_err rand = None →
  base64.all_chars base64.unreserved (GenerateTrackingID rand).1 = true.

(** The geography lookup fails: the request fails, the body cannot be
    read, the body is not the JSON expected, or the service answers a
    status other than ["success"]. *)
Definition geo_lookup_fails (reply : utils.HTTPReply) : Prop :=
  match reply with
  | utils.GetFailed _ | utils.ReadFailed _ | utils.Malformed _ => True
  | utils.Decoded data => utils.api_Status data ≠ "success"
  end.

(** The reading of C4: the response is written at the instant the
    event is recorded, whatever the dispatch of the notification
    does. *)
Definition response_not_delayed `{GoLib} (sw : notification.SenderWorld)
    (t : Tracker) (w : http.ResponseWriter) (r : http.Request)
    (trackingID baseURL : string) (world : OpenWorld) : Prop :=
  res_written_at
    (TrackEmailOpen (notification.SendNotification sw) t w r trackingID baseURL world)
  = now world.

(** The transport does not answer before it is asked. *)
Definition transport_causal (sw : notification.SenderWorld) : Prop :=
  match notification.transport sw with
  | notification.Replies after _ => 0 ≤ after
  | notification.Hangs => True
  end.

(** The reading of C1 for opens of one identifier: when every handler
    of the pool has finished, the history is longer by the number of
    handlers. *)
Definition no_lost_event (schedule : list nat) (calls : list (string → TrackingEvent))
    (trackingID : string) (t : Tracker) : Prop :=
  let c := run schedule (AtLookup trackingID <$> calls, t) in
  all_finished c.1 →
  length (events_at (trackingEvents c.2) trackingID)
  = (length (events_at (trackingEvents t) trackingID) + length calls)%nat.

(** The registry after the calls, made one after another. *)
Definition record_all (trackingID : string) (calls : list (string → TrackingEvent))
    (t : Tracker) : Tracker :=
  foldl (λ t mk, append_event t trackingID (mk (owner_of t trackingID))) t calls.

(** ** Registries, requests and worlds to evaluate on *)

(** A message and an event with the fields that matter filled in. *)
Definition mk_email (id : string) (sent : Time) (notify : bool) : Email :=
  {| email_ID := id; email_From := "from@example.com"; email_To := "to@example.com";
     email_Subject := "hello"; email_Body := "body"; email_TrackingID := id;
     SentAt := sent; NotifyOnOpen := notify; NotifyEmail := "me@example.com" |}.

Definition mk_event (id owner : string) (opened : Time) : TrackingEvent :=
  {| ID := "e"; TrackingID := id; BaseURL := ""; EmailID := owner;
     IPAddress := "8.8.8.8"; UserAgent := ""; Country := ""; City := "";
     Region := ""; ISP := ""; OpenedAt := opened; DeviceType := "Desktop";
     Browser := "Unknown"; OS := "Unknown" |}.

(** A registry whose key ["abc123"] holds one open of instant 5. *)
Definition one_open : Tracker :=
  {| trackingData := ∅;
     trackingEvents :=
       {[ "abc123" :=
            [ {| ID := "e1"; TrackingID := "abc123"; BaseURL := ""; EmailID := "";
                 IPAddress := "8.8.8.8"; UserAgent := ""; Country := ""; City := "";
                 Region := ""; ISP := ""; OpenedAt := 5; DeviceType := "Desktop";
                 Browser := "Unknown"; OS := "Unknown" |} ] ]} |}.

(** A registry with a message of instant 0 that has one open, a
    message of instant 95 that has an old open and a recent one, and an
    open under an identifier without a message. *)
Definition three_keys : Tracker :=
  {| trackingData := {[ "old" := mk_email "old" 0 false; "live" := mk_email "live" 95 false ]};
     trackingEvents :=
       {[ "old" := [mk_event "old" "old" 99];
          "live" := [mk_event "live" "live" 3; mk_event "live" "live" 97];
          "ghost" := [mk_event "ghost" "" 4] ]} |}.

(** A request from 8.8.8.8 through a proxy, a world in which the
    geography service cannot be reached, and a transport that never
    answers. *)
Definition proxied_request : http.Request :=
  {| http.Header := {[ "X-Forwarded-For" := ["8.8.8.8, 10.0.0.1"];
                       "User-Agent" := ["Mozilla/5.0 (Windows NT 10.0) Chrome/120.0"] ]};
     http.RemoteAddr := "10.0.0.1:4711" |}.

Definition unreachable_geo : OpenWorld :=
  {| geo_reply := utils.GetFailed "dial tcp: i/o timeout";
     uuid_bytes := [1; 2; 3; 4; 5; 6; 7; 8; 9; 10; 11; 12; 13; 14; 15; 16];
     now := 1000 |}.

Definition hanging_transport : notification.SenderWorld :=
  {| notification.template_err := None;
     notification.execute_err := None;
     notification.transport := notification.Hangs;
     notification.select_Done_on_tie := false |}.

Definition opted_in : Tracker :=
  RegisterEmail NewTracker (mk_email "abc123" 900 true) "abc123".

Definition direct_request : http.Request :=
  {| http.Header := ∅; http.RemoteAddr := "localhost:8080" |}.

(** A source whose stream repeats the bytes 0 to 3, and a source that
    has no entropy to give. *)
Definition counting_source : RandSource :=
  {| rand_err := None;
     rand_stream := λ i, match (i mod 4)%nat with
                         | 0%nat => Byte.x00 | 1%nat => Byte.x01
                         | 2%nat => Byte.x02 | _ => Byte.x03
                         end |}.

Definition exhausted_source : RandSource :=
  {| rand_err := Some "entropy source unavailable";
     rand_stream := λ _, Byte.x00 |}.

(** ** More of package strings, and the conversion of a byte to a string *)

Module gostrings.

(** [strings.Join(elems, sep)]. *)
Fixpoint Join (elems : list string) (sep : string) : string :=
  match elems with
  | [] => EmptyString
  | [e] => e
  | e :: rest => e +:+ sep +:+ Join rest sep
  end.

(** [string(b)] for a byte [b]: the UTF-8 encoding of the code point
    [b], one byte below 0x80 and two bytes from 0x80 on. *)
Definition string_of_byte (b : ascii) : string :=
  let n := nat_of_ascii b in
  if (n <? 128)%nat then String b EmptyString
  else String (ascii_of_nat (192 + n / 64))
         (String (ascii_of_nat (128 + n mod 64)) EmptyString).

(** The number of bytes of [s] equal to [c]. *)
Fixpoint Count (s : string) (c : ascii) : nat :=
  match s with
  | EmptyString => O
  | String a rest => ((if Ascii.eqb a c then 1 else 0) + Count rest c)%nat
  end.

(** [s[len(s)-1]] on a string that is not empty. *)
Fixpoint last_byte (s : string) (d : ascii) : ascii :=
  match s with
  | EmptyString => d
  | String a rest => last_byte rest a
  end.

(** Every byte of [s] is below 0x80. *)
Fixpoint ascii_only (s : string) : bool :=
  match s with
  | EmptyString => true
  | String a rest => (nat_of_ascii a <? 128)%nat && ascii_only rest
  end.

(** A digit or a letter from [a] to [f]. *)
Definition is_lower_hex (a : ascii) : bool :=
  let n := nat_of_ascii a in
  ((48 <=? n) && (n <=? 57) || (97 <=? n) && (n <=? 102))%nat.

End gostrings.

(** ** package utils: the helpers on addresses of mail *)

Module utils_email.

Definition ExtractDomain (email : string) : string :=
  match strings.Split email "@" with
  | [_; domain] => domain
  | _ => EmptyString
  end.

Definition MaskEmail (email : string) : string :=
  if (String.length email <? 5)%nat then email
  else
    match strings.Split email "@" with
    | [username; domain] =>
        if (2 <? String.length username)%nat then
          match username with
          | String first _ =>
              let maskedUsername :=
                gostrings.string_of_byte first +:+ "***"
                +:+ gostrings.string_of_byte (gostrings.last_byte username first) in
              maskedUsername +:+ "@" +:+ domain
          | EmptyString => email
          end
        else username +:+ "@" +:+ domain
    | _ => email
    end.

End utils_email.

(** ** The sweeper of [NewServer], and the registries the program reaches *)

Definition retention : Duration := 30 * 24 * time.Hour.

(** The goroutine [for range ticker.C { CleanupOldEntries(30 days) }]
    over a stretch in which no other call writes the registry: one
    sweep at each tick, [ticks] being the readings of [time.Now()] in
    the sweeps, in the order of the ticks.  The calls of the handlers
    between two ticks are steps of [timeline] below. *)
Definition sweeper (ticks : list Time) (t : Tracker) : Tracker :=
  foldl (λ t now, CleanupOldEntries now retention t) t ticks.

(** A world in which an open falls between a tick at
    [retention + 1000] and a tick at [retention + 1100]. *)
Definition open_between_ticks : OpenWorld :=
  {| geo_reply := utils.GetFailed "dial tcp: i/o timeout";
     uuid_bytes := [1; 2; 3; 4; 5; 6; 7; 8; 9; 10; 11; 12; 13; 14; 15; 16];
     now := retention + 1050 |}.

(** The registries reached from [NewTracker] by the three operations
    that write, with a clock that never goes back: [timeline clock t]
    when [t] is reached and no reading of [time.Now()] so far exceeds
    [clock]. *)
Inductive timeline `{GoLib} : Time → Tracker → Prop :=
| timeline_new (clock : Time) : timeline clock NewTracker
| timeline_register (clock : Time) (t : Tracker) (email : Email) (trackingID : string) :
    timeline clock t → timeline clock (RegisterEmail t email trackingID)
| timeline_open (clock : Time) (t : Tracker) (sender : NotificationSender)
    (w : http.ResponseWriter) (r : http.Request) (trackingID baseURL : string)
    (world : OpenWorld) :
    timeline clock t → clock ≤ now world →
    timeline (now world)
      (res_tracker (TrackEmailOpen sender t w r trackingID baseURL world))
| timeline_sweep (clock : Time) (t : Tracker) (now : Time) (maxAge : Duration) :
    timeline clock t → timeline clock (CleanupOldEntries now maxAge t)
| timeline_wait (clock clock' : Time) (t : Tracker) :
    timeline clock t → clock ≤ clock' → timeline clock' t.

(** What every history of a reached registry satisfies at [clock]:
    its events carry the identifier they are stored under, none was
    opened after [clock], and they are in the order of their opening. *)
Definition history_ok (clock : Time) (trackingID : string)
    (events : list TrackingEvent) : Prop :=
  Forall (λ e, TrackingID e = trackingID ∧ OpenedAt e ≤ clock) events
  ∧ StronglySorted (λ a b, OpenedAt a ≤ OpenedAt b) events.

(** The registry after a registration and one open at instant 1000,
    and the event of that open. *)
Definition opened_once : Tracker :=
  res_tracker (TrackEmailOpen (H := ipv4.lib)
    (notification.SendNotification hanging_transport) opted_in
    http.NewResponseWriter proxied_request "abc123" "http://localhost:8080"
    unreachable_geo).

Definition opened_event : TrackingEvent :=
  (new_event (H := ipv4.lib) proxied_request "abc123" "http://localhost:8080"
     unreachable_geo "abc123").1.

(** An answer of the geography service, and a world in which it
    arrives. *)
Definition geo_answer : utils.IPAPIData :=
  {| utils.api_Status := "success"; utils.api_Country := "United States";
     utils.api_Region := "California"; utils.api_City := "Mountain View";
     utils.api_ISP := "Google LLC"; utils.api_Lat := "37.422000";
     utils.api_Lon := "-122.084000" |}.

Definition answered_geo : OpenWorld :=
  {| geo_reply := utils.Decoded geo_answer;
     uuid_bytes := [1; 2; 3; 4; 5; 6; 7; 8; 9; 10; 11; 12; 13; 14; 15; 16];
     now := 1000 |}.

(** User agents as browsers send them. *)
Definition iphone_safari : string :=
  "Mozilla/5.0 (iPhone; CPU iPhone OS 16_0 like Mac OS X) AppleWebKit/605.1.15 (KHTML, like Gecko) Version/16.0 Mobile/15E148 Safari/604.1".

Definition android_chrome : string :=
  "Mozilla/5.0 (Linux; Android 13; Pixel 7) AppleWebKit/537.36 (KHTML, like Gecko) Chrome/116.0.0.0 Mobile Safari/537.36".

Definition windows_edge : string :=
  "Mozilla/5.0 (Windows NT 10.0; Win64; x64) AppleWebKit/537.36 (KHTML, like Gecko) Chrome/116.0.0.0 Safari/537.36 Edg/116.0.1938.69".

(** ** package context, as the senders use it

    A context is known by the time left until it is done and the error
    it then reports; [None] is a context that is never done.
    [WithTimeout] keeps the parent when the parent is done earlier. *)

Module context.

Definition Context : Type := option (Duration * string).

Definition Background : Context := None.

Definition DeadlineExceeded : string := "context deadline exceeded".

Definition WithTimeout (parent : Context) (timeout : Duration) : Duration * string :=
  match parent with
  | Some (remaining, err) =>
      if remaining <? timeout then (remaining, err) else (timeout, DeadlineExceeded)
  | None => (timeout, DeadlineExceeded)
  end.

End context.

(** ** package config (the version [main] calls, read from the environment) *)

Module config.

Record Config := {
  Server_Port : string;
  Server_Host : string;
  SMTP_Host : string;
  SMTP_Port : Z;
  SMTP_Username : string;
  SMTP_Password : string;
  SMTP_From : string;
  Redis_Host : string;
  Redis_Port : Z;
  Redis_Password : string;
  Redis_DB : Z;
  GeoAPI_Provider : string;
  GeoAPI_APIKey : string;
  GeoAPI_URL : string;
  App_Env : string;
  App_BaseURL : string;
  App_TrackingID : string
}.

(** [os.LookupEnv] is the lookup in the environment. *)
Definition getEnv (env : gmap string string) (key defaultVal : string) : string :=
  match env !! key with
  | Some val => val
  | None => defaultVal
  end.

(** [Atoi] is [strconv.Atoi], [None] where it returns an error. *)
Definition getEnvAsInt (Atoi : string → option Z) (env : gmap string string)
    (key : string) (defaultVal : Z) : Z :=
  match env !! key with
  | Some valStr =>
      match Atoi valStr with
      | Some val => val
      | None => defaultVal
      end
  | None => defaultVal
  end.

(** [LoadConfig], on the environment as [godotenv.Load] leaves it. *)
Definition LoadConfig (Atoi : string → option Z) (env : gmap string string) : Config :=
  let username := getEnv env "SMTP_USERNAME" "" in
  {| Server_Port := getEnv env "PORT" "8080";
     Server_Host := getEnv env "HOST" "0.0.0.0";
     App_Env := getEnv env "APP_ENV" "development";
     App_BaseURL := getEnv env "BASE_URL" "";
     App_TrackingID := getEnv env "TRACKING_ID" "dev_track_001";
     SMTP_Host := getEnv env "SMTP_HOST" "smtp.gmail.com";
     SMTP_Port := getEnvAsInt Atoi env "SMTP_PORT" 587;
     SMTP_Username := username;
     SMTP_Password := getEnv env "SMTP_PASSWORD" "";
     SMTP_From := username;
     Redis_Host := getEnv env "REDIS_HOST" "localhost";
     Redis_Port := getEnvAsInt Atoi env "REDIS_PORT" 6379;
     Redis_Password := getEnv env "REDIS_PASSWORD" "";
     Redis_DB := getEnvAsInt Atoi env "REDIS_DB" 0;
     GeoAPI_Provider := getEnv env "GEO_PROVIDER" "ip-api";
     GeoAPI_APIKey := getEnv env "GEO_API_KEY" "";
     GeoAPI_URL := getEnv env "GEO_URL" "http://ip-api.com/json/" |}.

Definition GetBaseURL (c : Config) (requestHost : string) : string :=
  if negb (String.eqb (App_BaseURL c) "") then App_BaseURL c
  else if String.eqb (App_Env c) "production" && negb (String.eqb (Server_Host c) "")
  then
    if negb (strings.HasPrefix (Server_Host c) "http")
    then "https://" +:+ Server_Host c
    else Server_Host c
  else "http://localhost:" +:+ Server_Port c.

(** [MustLoadConfig]: [LoadConfig], and a warning printed when the
    credentials are missing. *)
Definition MustLoadConfig (Atoi : string → option Z) (env : gmap string string)
  : Config * list string :=
  let cfg := LoadConfig Atoi env in
  (cfg,
   if String.eqb (SMTP_Username cfg) "" || String.eqb (SMTP_Password cfg) ""
   then ["WARNING: SMTP credentials are missing"] else []).

End config.

(** ** package tracker: the pixel *)

(** The data [EmbedTrackingPixel] executes the template on. *)
Record PixelData := {
  pd_BaseURL : string;
  pd_TrackingID : string;
  pd_Timestamp : Z
}.

(** The parsed template [templates/tracking_pixel.html], by what
    [Execute] writes for the data, or the error it returns. *)
Abbreviation Template := (PixelData → string + string) (only parsing).

(** [Time.Unix]: the seconds of the instant. *)
Definition Unix (t : Time) : Z := t / time.Second.

(** [EmbedTrackingPixel], with the field [pixelTemplate] of the tracker
    ([None] for [nil]) and the reading of [time.Now()]. *)
Definition EmbedTrackingPixel (pixelTemplate : option Template)
    (emailContent trackingID baseURL : string) (now : Time) : string * option string :=
  match pixelTemplate with
  | None => ("", Some "tracking pixel template not loaded")
  | Some tmpl =>
      let data := {| pd_BaseURL := baseURL; pd_TrackingID := trackingID;
                     pd_Timestamp := Unix now |} in
      match tmpl data with
      | inr err => ("", Some ("failed to execute tracking template: " +:+ err))
      | inl pixelHTML => (emailContent +:+ pixelHTML, None)
      end
  end.

(** ** package notification: sending the message itself *)

Module mail.

(** The message handed to the transport. *)
Record Message := {
  msg_From : string;
  msg_To : list string;
  msg_Subject : string;
  msg_HTML : string
}.

Definition send_timeout : Duration := 10 * time.Second.

(** [Sender.SendEmail]: the message built, the error returned and the
    time the call took.  The transport runs in a goroutine of its own
    and the [select] returns at the earlier of its answer and the end
    of the context. *)
Definition SendEmail (cfg : config.Config) (transport : notification.Transport)
    (select_Done_on_tie : bool) (ctx : context.Context)
    (to : list string) (subject body : string)
  : Message * option string * Duration :=
  let e := {| msg_From := config.SMTP_From cfg; msg_To := to;
              msg_Subject := subject; msg_HTML := body |} in
  let '(remaining, ctxErr) := context.WithTimeout ctx send_timeout in
  let timed_out := Some ("email send timed out: " +:+ ctxErr) in
  let answered (err : option string) :=
    match err with
    | Some err => Some ("smtp authentication/sending failed: " +:+ err)
    | None => None
    end in
  match transport with
  | notification.Hangs => (e, timed_out, remaining)
  | notification.Replies after err =>
      if after <? remaining then (e, answered err, after)
      else if remaining <? after then (e, timed_out, remaining)
      else if select_Done_on_tie then (e, timed_out, remaining)
      else (e, answered err, after)
  end.

End mail.

(** ** package service *)

Module service.

Record EmailRequest := {
  req_To : list string;
  req_Subject : string;
  req_Body : string;
  req_NotifyOnOpen : bool;
  req_NotifyEmail : string
}.

(** What one call of [SendTrackedEmail] reads from outside: the random
    source, the pixel template of the tracker, the transport, and the
    reading of [time.Now()] in [EmbedTrackingPixel]. *)
Record SendWorld := {
  sw_rand : RandSource;
  sw_template : option Template;
  sw_transport : notification.Transport;
  sw_select_Done_on_tie : bool;
  sw_now : Time
}.

(** What the call leaves behind: the identifier and the error returned,
    the registry, the message handed to the transport when the call got
    that far, and the instant of the return. *)
Record SendResult := {
  sr_trackingID : string;
  sr_err : option string;
  sr_tracker : Tracker;
  sr_sent : option mail.Message;
  sr_returned_at : Time
}.

Definition SendTrackedEmail (cfg : config.Config) (t : Tracker) (world : SendWorld)
    (ctx : context.Context) (req : EmailRequest) (baseURL : string) : SendResult :=
  match GenerateTrackingID (sw_rand world) with
  | (_, Some err) =>
      {| sr_trackingID := ""; sr_err := Some ("failed to generate tracking ID: " +:+ err);
         sr_tracker := t; sr_sent := None; sr_returned_at := sw_now world |}
  | (trackingID, None) =>
      match EmbedTrackingPixel (sw_template world) (req_Body req) trackingID baseURL
              (sw_now world) with
      | (_, Some err) =>
          {| sr_trackingID := "";
             sr_err := Some ("failed to embed tracking pixel: " +:+ err);
             sr_tracker := t; sr_sent := None; sr_returned_at := sw_now world |}
      | (trackedBody, None) =>
          let emailCtx := Some (context.WithTimeout ctx (10 * time.Second)) in
          let '(message, sendErr, elapsed) :=
            mail.SendEmail cfg (sw_transport world) (sw_select_Done_on_tie world)
              emailCtx (req_To req) (req_Subject req) trackedBody in
          let sent_at := time.Add (sw_now world) elapsed in
          match sendErr with
          | Some err =>
              {| sr_trackingID := ""; sr_err := Some ("failed to send email: " +:+ err);
                 sr_tracker := t; sr_sent := Some message; sr_returned_at := sent_at |}
          | None =>
              let emailModel :=
                {| email_ID := trackingID;
                   email_From := config.SMTP_From cfg;
                   email_To := gostrings.Join (req_To req) ",";
                   email_Subject := req_Subject req;
                   email_Body := req_Body req;
                   email_TrackingID := trackingID;
                   SentAt := sent_at;
                   NotifyOnOpen := req_NotifyOnOpen req;
                   NotifyEmail := req_NotifyEmail req |} in
              {| sr_trackingID := trackingID; sr_err := None;
                 sr_tracker := RegisterEmail t emailModel trackingID;
                 sr_sent := Some message; sr_returned_at := sent_at |}
          end
      end
  end.

End service.

(** A pixel template, a request to send, a configuration, and worlds
    to send in: one whose transport answers after two seconds, one
    whose transport hangs. *)
Definition pixel_template (data : PixelData) : string + string :=
  inl ("<img src='" +:+ pd_BaseURL data +:+ "/track/" +:+ pd_TrackingID data +:+ "'>").

Definition send_request : service.EmailRequest :=
  {| service.req_To := ["bob@example.com"; "carol@example.com"];
     service.req_Subject := "hello"; service.req_Body := "<p>hi</p>";
     service.req_NotifyOnOpen := true; service.req_NotifyEmail := "me@example.com" |}.

(** [strconv.Atoi] on a string of decimal digits; [None] on anything
    else. *)
Fixpoint digits_value (s : string) (acc : Z) : option Z :=
  match s with
  | EmptyString => Some acc
  | String a rest =>
      match ipv4.digit_of a with
      | Some d => digits_value rest (10 * acc + d)
      | None => None
      end
  end.

Definition decimal_Atoi (s : string) : option Z :=
  match s with
  | EmptyString => None
  | _ => digits_value s 0
  end.

Definition sender_config : config.Config :=
  config.LoadConfig decimal_Atoi
    {[ "SMTP_USERNAME" := "me@example.com"; "SMTP_PASSWORD" := "secret" ]}.

Definition answering_world : service.SendWorld :=
  {| service.sw_rand := counting_source;
     service.sw_template := Some pixel_template;
     service.sw_transport := notification.Replies (2 * time.Second) None;
     service.sw_select_Done_on_tie := false;
     service.sw_now := 500 |}.

Definition hanging_world : service.SendWorld :=
  {| service.sw_rand := counting_source;
     service.sw_template := Some pixel_template;
     service.sw_transport := notification.Hangs;
     service.sw_select_Done_on_tie := false;
     service.sw_now := 500 |}.

(** ** package regexp, as [ValidateEmail] uses it

    A pattern of the kind the validation compiles: classes of bytes,
    concatenation, alternation and repetition.  [MatchString] on a
    pattern written between [^] and [$] decides whether the whole
    string is in the language of the pattern, here by derivatives. *)

Module regexp.

Inductive Regexp :=
| Empty
| Eps
| Class (p : ascii → bool)
| Cat (r1 r2 : Regexp)
| Alt (r1 r2 : Regexp)
| Star (r : Regexp).

(** [r+] and [r{2,}]. *)
Definition Plus (r : Regexp) : Regexp := Cat r (Star r).
Definition AtLeast2 (r : Regexp) : Regexp := Cat r (Cat r (Star r)).

Fixpoint nullable (r : Regexp) : bool :=
  match r with
  | Empty => false
  | Eps => true
  | Class _ => false
  | Cat r1 r2 => nullable r1 && nullable r2
  | Alt r1 r2 => nullable r1 || nullable r2
  | Star _ => true
  end.

Fixpoint deriv (a : ascii) (r : Regexp) : Regexp :=
  match r with
  | Empty => Empty
  | Eps => Empty
  | Class p => if p a then Eps else Empty
  | Cat r1 r2 =>
      if nullable r1 then Alt (Cat (deriv a r1) r2) (deriv a r2)
      else Cat (deriv a r1) r2
  | Alt r1 r2 => Alt (deriv a r1) (deriv a r2)
  | Star r => Cat (deriv a r) (Star r)
  end.

Fixpoint MatchString (r : Regexp) (s : string) : bool :=
  match s with
  | EmptyString => nullable r
  | String a rest => MatchString (deriv a r) rest
  end.

(** The language of a pattern. *)
Inductive matches : Regexp → string → Prop :=
| matches_eps : matches Eps EmptyString
| matches_class (p : ascii → bool) (a : ascii) :
    p a = true → matches (Class p) (String a EmptyString)
| matches_cat (r1 r2 : Regexp) (s1 s2 : string) :
    matches r1 s1 → matches r2 s2 → matches (Cat r1 r2) (s1 +:+ s2)
| matches_alt_l (r1 r2 : Regexp) (s : string) :
    matches r1 s → matches (Alt r1 r2) s
| matches_alt_r (r1 r2 : Regexp) (s : string) :
    matches r2 s → matches (Alt r1 r2) s
| matches_star_nil (r : Regexp) : matches (Star r) EmptyString
| matches_star_cons (r : Regexp) (s1 s2 : string) :
    matches r s1 → matches (Star r) s2 → matches (Star r) (s1 +:+ s2).

End regexp.

(** ** package utils: the validation of an address *)

Module utils_validate.

Definition is_letter (a : ascii) : bool := http.is_lower a || http.is_upper a.
Definition is_digit (a : ascii) : bool :=
  (48 <=? nat_of_ascii a)%nat && (nat_of_ascii a <=? 57)%nat.
Definition one_of (chars : string) (a : ascii) : bool :=
  (0 <? gostrings.Count chars a)%nat.

(** [[a-zA-Z0-9._%+-]], [[a-zA-Z0-9.-]] and [[a-zA-Z]]. *)
Definition local_class (a : ascii) : bool :=
  is_letter a || is_digit a || one_of "._%+-" a.
Definition domain_class (a : ascii) : bool :=
  is_letter a || is_digit a || one_of ".-" a.

(** [^[a-zA-Z0-9._%+-]+@[a-zA-Z0-9.-]+\.[a-zA-Z]{2,}$]. *)
Definition emailRegex : regexp.Regexp :=
  regexp.Cat (regexp.Plus (regexp.Class local_class))
    (regexp.Cat (regexp.Class (Ascii.eqb "@"))
      (regexp.Cat (regexp.Plus (regexp.Class domain_class))
        (regexp.Cat (regexp.Class (Ascii.eqb "."))
          (regexp.AtLeast2 (regexp.Class is_letter))))).

Definition ValidateEmail (email : string) : bool :=
  regexp.MatchString emailRegex email.

End utils_validate.

(** ** package main: the handlers of the API *)

Module server.

(** What a handler answers: the status and the JSON value. *)
Inductive Body :=
| JSONObject (fields : gmap string string)
| JSONEvent (event : TrackingEvent).

Record Response := {
  resp_status : Z;
  resp_body : Body
}.

Definition StatusOK : Z := 200.
Definition StatusBadRequest : Z := 400.
Definition StatusNotFound : Z := 404.
Definition StatusInternalServerError : Z := 500.

(** The loop over [req.To] of [sendEmail]: the first address that
    [ValidateEmail] rejects. *)
Fixpoint first_invalid (to : list string) : option string :=
  match to with
  | [] => None
  | email :: rest =>
      if negb (utils_validate.ValidateEmail email) then Some email
      else first_invalid rest
  end.

(** [sendEmail], from the outcome of [ShouldBindJSON] on: the error of
    the binding or the request bound.  [baseURL] is what the middleware
    stored for the request.  The answer, the registry, and the message
    handed to the transport if one was. *)
Definition sendEmail (cfg : config.Config) (t : Tracker) (world : service.SendWorld)
    (ctx : context.Context) (bound : string + service.EmailRequest) (baseURL : string)
  : Response * Tracker * option mail.Message :=
  match bound with
  | inl err =>
      ({| resp_status := StatusBadRequest;
          resp_body := JSONObject {[ "error" := err ]} |}, t, None)
  | inr req =>
      match first_invalid (service.req_To req) with
      | Some email =>
          ({| resp_status := StatusBadRequest;
              resp_body := JSONObject {[ "error" := "Invalid email: " +:+ email ]} |},
           t, None)
      | None =>
          let sent := service.SendTrackedEmail cfg t world ctx req baseURL in
          match service.sr_err sent with
          | Some err =>
              ({| resp_status := StatusInternalServerError;
                  resp_body := JSONObject {[ "error" := err ]} |},
               service.sr_tracker sent, service.sr_sent sent)
          | None =>
              ({| resp_status := StatusOK;
                  resp_body :=
                    JSONObject
                      {[ "message" := "Email sent successfully";
                         "tracking_id" := service.sr_trackingID sent;
                         "base_url" := baseURL;
                         "environment" := config.App_Env cfg ]} |},
               service.sr_tracker sent, service.sr_sent sent)
          end
      end
  end.

(** [getTrackingInfo] for the identifier of the path. *)
Definition getTrackingInfo (t : Tracker) (trackingID : string) : Response :=
  match GetTrackingStats t trackingID with
  | None =>
      {| resp_status := StatusNotFound;
         resp_body := JSONObject {[ "error" := "Tracking data not found" ]} |}
  | Some stats => {| resp_status := StatusOK; resp_body := JSONEvent stats |}
  end.

End server.

(** A request with a recipient that is no address. *)
Definition bad_request : service.EmailRequest :=
  {| service.req_To := ["bob@example.com"; "carol at example.com"; "x"];
     service.req_Subject := "hello"; service.req_Body := "<p>hi</p>";
     service.req_NotifyOnOpen := false; service.req_NotifyEmail := "" |}.

(** * Properties *)

(** ** The arithmetic of [Duration] *)

(** The unary minus is the opposite on every [Duration] but the least,
    where it wraps: the horizon [minDuration] puts the cutoff of the
    sweep [2 ^ 63] nanoseconds before [now], not after it. *)
Lemma Neg_opp (d : Duration) :
  time.minDuration < d ≤ time.maxDuration → time.Neg d = - d.
Proof.
  unfold time.Neg, time.int64, time.minDuration, time.maxDuration. intros Hd.
  rewrite Z.mod_small; lia.
Qed.

Lemma Neg_minDuration : time.Neg time.minDuration = time.minDuration.
Proof. reflexivity. Qed.

Lemma sweep_cutoff (now : Time) (maxAge : Duration) :
  time.minDuration < maxAge ≤ time.maxDuration →
  time.Add now (time.Neg maxAge) = now - maxAge.
Proof. intros Hd. unfold time.Add. rewrite Neg_opp; [lia|done]. Qed.

(** ** Facts about the sweep *)

Section cleanup_facts.

Variable cutoff : Time.

Lemma recent_events_filter (events : list TrackingEvent) :
  recent_events cutoff events
  = filter (λ e, cutoff < OpenedAt e) events.
Proof.
  induction events as [|e es IH]; simpl; [done|].
  unfold time.After. rewrite IH.
  destruct (Z.ltb_spec cutoff (OpenedAt e)).
  - by rewrite filter_cons_True.
  - rewrite filter_cons_False; [done | lia].
Qed.

Lemma recent_events_after (events : list TrackingEvent) (e : TrackingEvent) :
  e ∈ recent_events cutoff events → cutoff < OpenedAt e.
Proof. rewrite recent_events_filter, list_elem_of_filter. tauto. Qed.

(** The first loop, key by key. *)
Lemma evict_loop_lookup (t : Tracker) (id : string) :
  let t1 := map_fold (evict_message cutoff) t (trackingData t) in
  match trackingData t !! id with
  | Some email =>
      if time.Before (SentAt email) cutoff
      then trackingData t1 !! id = None ∧ trackingEvents t1 !! id = None
      else trackingData t1 !! id = Some email
           ∧ trackingEvents t1 !! id = trackingEvents t !! id
  | None =>
      trackingData t1 !! id = None
      ∧ trackingEvents t1 !! id = trackingEvents t !! id
  end.
Proof.
  simpl.
  assert (G : ∀ (dm : gmap string Email) (t0 : Tracker),
    let t1 := map_fold (evict_message cutoff) t0 dm in
    ∀ k,
      match dm !! k with
      | Some email =>
          if time.Before (SentAt email) cutoff
          then trackingData t1 !! k = None ∧ trackingEvents t1 !! k = None
          else trackingData t1 !! k = trackingData t0 !! k
               ∧ trackingEvents t1 !! k = trackingEvents t0 !! k
      | None =>
          trackingData t1 !! k = trackingData t0 !! k
          ∧ trackingEvents t1 !! k = trackingEvents t0 !! k
      end).
  { intros dm t0.
    apply (map_fold_weak_ind (λ (r : Tracker) (m : gmap string Email),
      ∀ k, match m !! k with
           | Some email =>
               if time.Before (SentAt email) cutoff
               then trackingData r !! k = None ∧ trackingEvents r !! k = None
               else trackingData r !! k = trackingData t0 !! k
                    ∧ trackingEvents r !! k = trackingEvents t0 !! k
           | None =>
               trackingData r !! k = trackingData t0 !! k
               ∧ trackingEvents r !! k = trackingEvents t0 !! k
           end)).
    - intros k. by rewrite lookup_empty.
    - intros i x m r Hi IH k. unfold evict_message.
      destruct (decide (i = k)) as [->|Hne].
      + rewrite lookup_insert_eq.
        destruct (time.Before (SentAt x) cutoff); simpl.
        * by rewrite !lookup_delete_eq.
        * specialize (IH k). by rewrite Hi in IH.
      + rewrite lookup_insert_ne by done. specialize (IH k).
        destruct (time.Before (SentAt x) cutoff); simpl; [|done].
        by rewrite !lookup_delete_ne. }
  specialize (G (trackingData t) t id). simpl in G.
  destruct (trackingData t !! id) as [email|] eqn:E; [|done].
  by destruct (time.Before (SentAt email) cutoff).
Qed.

(** The second loop, key by key. *)
Lemma trim_loop_lookup (m : gmap string (list TrackingEvent)) (id : string) :
  map_fold (trim_history cutoff) m m !! id = recent_events cutoff <$> m !! id.
Proof.
  assert (G : ∀ (m0 em : gmap string (list TrackingEvent)) k,
    map_fold (trim_history cutoff) m0 em !! k
    = match em !! k with
      | Some evs => Some (recent_events cutoff evs)
      | None => m0 !! k
      end).
  { intros m0 em.
    apply (map_fold_weak_ind
      (λ (r : gmap string (list TrackingEvent)) em',
        ∀ k, r !! k = match em' !! k with
                      | Some evs => Some (recent_events cutoff evs)
                      | None => m0 !! k
                      end)).
    - intros k. by rewrite lookup_empty.
    - intros i x em' r Hi IH k. unfold trim_history.
      destruct (decide (i = k)) as [->|Hne].
      + by rewrite !lookup_insert_eq.
      + rewrite !lookup_insert_ne by done. apply IH. }
  rewrite G. by destruct (m !! id).
Qed.

End cleanup_facts.

(** ** The registry: registration and the two queries *)

(** C10. [RegisterEmail] writes the entry of [trackingID] in the
    message table and nothing else: the event table is the same map,
    every other identifier keeps its message, and both queries answer
    as before for every identifier, [trackingID] included; so an
    identifier registered again keeps the opens recorded under it. *)
Theorem RegisterEmail_frame (t : Tracker) (email : Email) (trackingID id : string) :
  let t' := RegisterEmail t email trackingID in
  trackingEvents t' = trackingEvents t
  ∧ trackingData t' !! id
    = (if decide (id = trackingID) then Some email else trackingData t !! id)
  ∧ GetAllTrackingEvents t' id = GetAllTrackingEvents t id
  ∧ GetTrackingStats t' id = GetTrackingStats t id.
Proof.
  simpl. split_and!; try done.
  unfold RegisterEmail; simpl. case_decide as Hid.
  - subst. by rewrite lookup_insert_eq.
  - by rewrite lookup_insert_ne.
Qed.

Lemma last_lookup_pred {A} (l : list A) : last l = l !! (length l - 1)%nat.
Proof.
  induction l as [|x [|y l] IH]; [done..|].
  change (last (x :: y :: l)) with (last (y :: l)). rewrite IH. simpl.
  by rewrite Nat.sub_0_r.
Qed.

Lemma last_cons_default {A} (e : A) (es : list A) :
  last (e :: es) = Some (List.last es e).
Proof.
  revert e. induction es as [|y es IH]; intros e; [done|].
  change (last (e :: y :: es)) with (last (y :: es)). rewrite IH.
  destruct es as [|z es]; [done|].
  f_equal. clear IH. revert z. induction es as [|u es IH]; intros z; [done|].
  change (List.last (z :: u :: es) y) with (List.last (u :: es) y).
  change (List.last (y :: z :: u :: es) e) with (List.last (u :: es) e).
  specialize (IH u). simpl in IH |- *. exact IH.
Qed.

Lemma GetTrackingStats_last (t : Tracker) (trackingID : string) :
  GetTrackingStats t trackingID = last (GetAllTrackingEvents t trackingID).
Proof.
  unfold GetTrackingStats, GetAllTrackingEvents.
  destruct (trackingEvents t !! trackingID) as [events|]; [|done].
  destruct events as [|e es]; [done|].
  change (0 <? length (e :: es))%nat with true. cbv iota.
  by rewrite last_lookup_pred.
Qed.

(** C8. [GetTrackingStats] is the last element of what
    [GetAllTrackingEvents] returns on the same registry: the tail of
    the history when it has one, and [nil] when the history is empty or
    the identifier is unknown. *)
Theorem GetTrackingStats_is_last (t : Tracker) (trackingID : string) :
  GetTrackingStats t trackingID = last (GetAllTrackingEvents t trackingID)
  ∧ match GetAllTrackingEvents t trackingID with
    | [] => GetTrackingStats t trackingID = None
    | e :: es => GetTrackingStats t trackingID = Some (List.last es e)
    end.
Proof.
  split; [apply GetTrackingStats_last|].
  rewrite GetTrackingStats_last.
  destruct (GetAllTrackingEvents t trackingID) as [|e es]; [done|].
  apply last_cons_default.
Qed.

(** The answer of [GetTrackingStats], by the state of the history. *)
Lemma GetTrackingStats_cases (t : Tracker) (trackingID : string) :
  match trackingEvents t !! trackingID with
  | None | Some [] => GetTrackingStats t trackingID = None
  | Some (e :: es) => is_Some (GetTrackingStats t trackingID)
  end.
Proof.
  unfold GetTrackingStats.
  destruct (trackingEvents t !! trackingID) as [[|e es]|]; [done| |done].
  change (0 <? length (e :: es))%nat with true. cbv iota.
  apply lookup_lt_is_Some. simpl. lia.
Qed.

(** C5, refuted: after a sweep that trims the only open of ["abc123"],
    the key is present with an empty history, and [GetTrackingStats]
    answers [nil] as it does on the new registry, which has no key. *)
Lemma GetTrackingStats_miss_not_distinct :
  ¬ miss_is_distinct NewTracker (CleanupOldEntries 100 10 one_open) "abc123".
Proof.
  intros Hd. apply Hd; by vm_compute.
Qed.

(** C5, amended. [GetTrackingStats] returns [nil] for an identifier
    without a history and the same [nil] for an identifier whose
    history is present and empty; it returns an event exactly when the
    history holds one. *)
Theorem GetTrackingStats_miss (t : Tracker) (trackingID : string) :
  match trackingEvents t !! trackingID with
  | None => GetTrackingStats t trackingID = None
  | Some [] =>
      GetTrackingStats t trackingID = None
      ∧ GetTrackingStats t trackingID
        = GetTrackingStats NewTracker trackingID
  | Some (e :: es) => is_Some (GetTrackingStats t trackingID)
  end.
Proof.
  pose proof (GetTrackingStats_cases t trackingID) as Hc.
  destruct (trackingEvents t !! trackingID) as [[|e es]|]; [|done..].
  split; [done|]. by rewrite Hc.
Qed.

(** ** The retention sweep *)

(** C2. After [CleanupOldEntries] at instant [now] with horizon
    [maxAge], a [Duration] whose opposite is a [Duration] (every
    horizon but [minDuration], where the minus of line 206 wraps): a
    message created before [now - maxAge] is gone from the message
    table and its identifier is gone from the event table; no message
    that remains was created before [now - maxAge]; and no event that
    remains, under any identifier, with a live message or without one,
    was opened before [now - maxAge]. *)
Theorem CleanupOldEntries_evicts (t : Tracker) (now : Time) (maxAge : Duration)
    (id : string) :
  time.minDuration < maxAge ≤ time.maxDuration →
  let t' := CleanupOldEntries now maxAge t in
  let cutoff := now - maxAge in
  (∀ email, trackingData t !! id = Some email → SentAt email < cutoff →
     trackingData t' !! id = None ∧ trackingEvents t' !! id = None
     ∧ GetAllTrackingEvents t' id = [] ∧ GetTrackingStats t' id = None)
  ∧ (∀ email, trackingData t' !! id = Some email → ¬ SentAt email < cutoff)
  ∧ (∀ events event, trackingEvents t' !! id = Some events → event ∈ events →
       ¬ OpenedAt event < cutoff).
Proof.
  intros Hrange. cbv zeta. unfold CleanupOldEntries.
  rewrite (sweep_cutoff now maxAge Hrange). cbn [trackingData trackingEvents].
  set (cutoff := now - maxAge).
  pose proof (evict_loop_lookup cutoff t id) as Hev. simpl in Hev.
  rewrite trim_loop_lookup.
  set (t1 := map_fold (evict_message cutoff) t (trackingData t)) in *.
  split_and!.
  - intros email Hm Hold. rewrite Hm in Hev. unfold time.Before in Hev.
    destruct (Z.ltb_spec (SentAt email) cutoff); [|lia].
    destruct Hev as [Hd He].
    assert (Ht : recent_events cutoff <$> trackingEvents t1 !! id = None)
      by (by rewrite He).
    split_and!; [done|done|..].
    + unfold GetAllTrackingEvents; simpl. by rewrite trim_loop_lookup, Ht.
    + unfold GetTrackingStats; simpl. by rewrite trim_loop_lookup, Ht.
  - intros email Hm Hold.
    destruct (trackingData t !! id) as [email0|].
    + unfold time.Before in Hev.
      destruct (Z.ltb_spec (SentAt email0) cutoff).
      * destruct Hev as [Hd _]. congruence.
      * destruct Hev as [Hd _]. assert (email = email0) by congruence. subst. lia.
    + destruct Hev as [Hd _]. congruence.
  - intros events event Hl Hin.
    destruct (trackingEvents t1 !! id) as [evs|]; [|done].
    simpl in Hl. injection Hl as <-.
    apply recent_events_after in Hin. lia.
Qed.

Lemma CleanupOldEntries_evicts_witness :
  trackingData (CleanupOldEntries 100 10 three_keys) !! "old" = None
  ∧ trackingEvents (CleanupOldEntries 100 10 three_keys) !! "old" = None
  ∧ ¬ OpenedAt (mk_event "live" "live" 97) < 100 - 10.
Proof.
  assert (Hrange : time.minDuration < 10 ≤ time.maxDuration) by (by vm_compute).
  pose proof (CleanupOldEntries_evicts three_keys 100 10 "old" Hrange) as [Hold _].
  pose proof (CleanupOldEntries_evicts three_keys 100 10 "live" Hrange) as (_ & _ & Hev).
  specialize (Hold (mk_email "old" 0 false)).
  destruct Hold as (H1 & H2 & _); [reflexivity | simpl; lia |].
  split_and!; [exact H1 | exact H2 |].
  apply (Hev [mk_event "live" "live" 97]); [by vm_compute | apply list_elem_of_here].
Defined.

(** The bound on the horizon is needed: at [minDuration] the opposite
    wraps, the cutoff falls [2 ^ 63] nanoseconds before [now], and the
    message created at 0 stays at instant 100, long before
    [100 - minDuration]. *)
Example CleanupOldEntries_least_horizon :
  trackingData (CleanupOldEntries 100 time.minDuration three_keys) !! "old"
  = Some (mk_email "old" 0 false)
  ∧ SentAt (mk_email "old" 0 false) < 100 - time.minDuration.
Proof. split; by vm_compute. Qed.

(** ** Recording an open *)

Section track_open_facts.

Context `{GoLib}.

Variable sender : NotificationSender.

Lemma TrackEmailOpen_tracker t w r trackingID baseURL world :
  res_tracker (TrackEmailOpen sender t w r trackingID baseURL world)
  = append_event t trackingID
      (new_event r trackingID baseURL world (owner_of t trackingID)).1.
Proof.
  unfold TrackEmailOpen.
  destruct (new_event _ _ _ _ _) as [event geoErr].
  by destruct (notify_open _ _ _ _) as [sent elapsed].
Qed.

Lemma TrackEmailOpen_writer t w r trackingID baseURL world :
  res_writer (TrackEmailOpen sender t w r trackingID baseURL world) = serve_pixel w.
Proof.
  unfold TrackEmailOpen.
  destruct (new_event _ _ _ _ _) as [event geoErr].
  by destruct (notify_open _ _ _ _) as [sent elapsed].
Qed.

Lemma new_event_fields r trackingID baseURL world emailID :
  let event := (new_event r trackingID baseURL world emailID).1 in
  TrackingID event = trackingID ∧ EmailID event = emailID
  ∧ OpenedAt event = now world ∧ BaseURL event = baseURL.
Proof.
  unfold new_event.
  by destruct (utils.GetGeoLocation _ _) as [geoInfo err].
Qed.

Lemma append_event_lookup t trackingID event id :
  trackingEvents (append_event t trackingID event) !! id
  = if decide (id = trackingID)
    then Some (events_at (trackingEvents t) trackingID ++ [event])
    else trackingEvents t !! id.
Proof.
  unfold append_event; simpl. case_decide as Hid.
  - subst. by rewrite lookup_insert_eq.
  - by rewrite lookup_insert_ne.
Qed.

Lemma GetAllTrackingEvents_events_at t id :
  GetAllTrackingEvents t id = events_at (trackingEvents t) id.
Proof. unfold GetAllTrackingEvents, events_at. by destruct (_ !! _). Qed.

(** C3. For every identifier, with a registered message or without,
    [TrackEmailOpen] returns having stored one new event at the end
    of the history of that identifier: the history grows by exactly
    one, the new event is the latest one, no other history and no
    message changes, the pixel is served, and the event carries the
    identifier of the message when one is registered and the empty
    string when none is. *)
Theorem TrackEmailOpen_records (t : Tracker) (w : http.ResponseWriter)
    (r : http.Request) (trackingID baseURL : string) (world : OpenWorld)
    (id : string) :
  let res := TrackEmailOpen sender t w r trackingID baseURL world in
  ∃ event,
    GetAllTrackingEvents (res_tracker res) trackingID
    = GetAllTrackingEvents t trackingID ++ [event]
    ∧ length (GetAllTrackingEvents (res_tracker res) trackingID)
      = S (length (GetAllTrackingEvents t trackingID))
    ∧ GetTrackingStats (res_tracker res) trackingID = Some event
    ∧ TrackingID event = trackingID
    ∧ EmailID event
      = match trackingData t !! trackingID with
        | Some email => email_ID email
        | None => ""
        end
    ∧ trackingData (res_tracker res) = trackingData t
    ∧ trackingEvents (res_tracker res) !! id
      = (if decide (id = trackingID)
         then Some (GetAllTrackingEvents t trackingID ++ [event])
         else trackingEvents t !! id)
    ∧ res_writer res = serve_pixel w
    ∧ http.rw_Body (res_writer res) = http.rw_Body w ++ gifData.
Proof.
  simpl. rewrite TrackEmailOpen_tracker, TrackEmailOpen_writer.
  set (event := (new_event r trackingID baseURL world (owner_of t trackingID)).1).
  destruct (new_event_fields r trackingID baseURL world (owner_of t trackingID))
    as (Hid & Howner & _ & _). fold event in Hid, Howner.
  exists event.
  assert (Hall : GetAllTrackingEvents (append_event t trackingID event) trackingID
                 = GetAllTrackingEvents t trackingID ++ [event]).
  { rewrite !GetAllTrackingEvents_events_at. unfold events_at at 1.
    rewrite append_event_lookup. by rewrite decide_True. }
  split_and!; try done.
  - rewrite Hall, length_app. simpl. lia.
  - rewrite GetTrackingStats_last, Hall. apply last_snoc.
  - rewrite append_event_lookup, GetAllTrackingEvents_events_at. done.
Qed.

(** C6. When the geography lookup fails, [GetGeoLocation] returns a
    geography with empty fields next to its error, and
    [TrackEmailOpen] still stores the event, with empty [Country],
    [City], [Region] and [ISP], and serves the pixel; the error is
    printed and goes no further. *)
Theorem TrackEmailOpen_geo_failure (t : Tracker) (w : http.ResponseWriter)
    (r : http.Request) (trackingID baseURL : string) (world : OpenWorld) :
  geo_lookup_fails (geo_reply world) →
  let res := TrackEmailOpen sender t w r trackingID baseURL world in
  ∃ event,
    GetAllTrackingEvents (res_tracker res) trackingID
    = GetAllTrackingEvents t trackingID ++ [event]
    ∧ Country event = "" ∧ City event = "" ∧ Region event = "" ∧ ISP event = ""
    ∧ IPAddress event = utils.GetClientIP r
    ∧ utils.GetGeoLocation (utils.GetClientIP r) (geo_reply world)
      = ({| geo_IP := utils.GetClientIP r; geo_Country := ""; geo_City := "";
            geo_Region := ""; geo_ISP := ""; geo_Lat := ""; geo_Lon := "" |},
         Some "could not determine location")
    ∧ LogGeoError "could not determine location" ∈ res_log res
    ∧ res_writer res = serve_pixel w.
Proof.
  intros Hfail. simpl.
  assert (Hgeo : utils.GetGeoLocation (utils.GetClientIP r) (geo_reply world)
    = ({| geo_IP := utils.GetClientIP r; geo_Country := ""; geo_City := "";
          geo_Region := ""; geo_ISP := ""; geo_Lat := ""; geo_Lon := "" |},
       Some "could not determine location")).
  { unfold utils.GetGeoLocation, utils.getGeoFromIPAPI.
    destruct (geo_reply world) as [e|e|e|data]; try done.
    simpl in Hfail.
    destruct (String.eqb_spec (utils.api_Status data) "success"); done. }
  exists (new_event r trackingID baseURL world (owner_of t trackingID)).1.
  rewrite TrackEmailOpen_tracker, TrackEmailOpen_writer.
  unfold TrackEmailOpen, new_event. rewrite Hgeo.
  destruct (notify_open _ _ _ _) as [sent elapsed]. simpl.
  split_and!; try reflexivity.
  - rewrite !GetAllTrackingEvents_events_at. unfold events_at at 1.
    rewrite append_event_lookup. by rewrite decide_True.
  - apply list_elem_of_here.
Qed.

End track_open_facts.

Lemma TrackEmailOpen_geo_failure_witness :
  ∃ event,
    GetAllTrackingEvents
      (res_tracker (TrackEmailOpen (H := ipv4.lib)
         (notification.SendNotification hanging_transport) opted_in
         http.NewResponseWriter proxied_request "abc123" "http://localhost:8080"
         unreachable_geo)) "abc123" = [event]
    ∧ Country event = "" ∧ City event = "" ∧ Region event = "" ∧ ISP event = ""
    ∧ IPAddress event = "8.8.8.8".
Proof.
  destruct (TrackEmailOpen_geo_failure (H := ipv4.lib)
              (notification.SendNotification hanging_transport) opted_in
              http.NewResponseWriter proxied_request "abc123" "http://localhost:8080"
              unreachable_geo)
    as (event & Hall & Hc & Hci & Hr & Hi & Hip & _); [exact I|].
  exists event. split_and!; [exact Hall | exact Hc | exact Hci | exact Hr | exact Hi |].
  rewrite Hip. reflexivity.
Defined.

(** ** The notification and the response *)

(** C4, refuted: the message asked for a notification and the
    transport never answers; the handler waits in [SendNotification]
    until the deadline of the context, and writes the pixel ten
    seconds after it recorded the event. *)
Lemma TrackEmailOpen_response_delayed :
  ¬ response_not_delayed (H := ipv4.lib) hanging_transport opted_in
      http.NewResponseWriter proxied_request "abc123" "http://localhost:8080"
      unreachable_geo.
Proof. unfold response_not_delayed. by vm_compute. Qed.

Example response_ten_seconds_late :
  res_written_at
    (TrackEmailOpen (H := ipv4.lib) (notification.SendNotification hanging_transport)
       opted_in http.NewResponseWriter proxied_request "abc123"
       "http://localhost:8080" unreachable_geo)
  = now unreachable_geo + 10 * time.Second.
Proof. by vm_compute. Qed.

(** The time [SendNotification] takes: nothing when the template
    fails, else the earlier of the reply and the deadline. *)
Lemma SendNotification_elapsed (sw : notification.SenderWorld) (deadline : Duration)
    (to : list string) (subject : string) (data : gmap string notification.Value) :
  (notification.SendNotification sw deadline to subject data).2
  = match notification.template_err sw, notification.execute_err sw with
    | None, None =>
        match notification.transport sw with
        | notification.Replies after _ => Z.min after deadline
        | notification.Hangs => deadline
        end
    | _, _ => 0
    end.
Proof.
  unfold notification.SendNotification.
  destruct (notification.template_err sw); [done|].
  destruct (notification.execute_err sw); [done|].
  destruct (notification.transport sw) as [after err|]; [|done].
  destruct (Z.ltb_spec after deadline); simpl; [lia|].
  destruct (Z.ltb_spec deadline after); simpl; [lia|].
  destruct (notification.select_Done_on_tie sw); simpl; lia.
Qed.

(** C4, amended. [TrackEmailOpen] calls [SendNotification] in the
    handler and writes the pixel when the call has returned: the
    response waits for the dispatch, for the time the call takes, which
    is at most the 10 seconds of the context; without a registered
    message that asked for a notification it does not wait.  What the
    dispatch does changes neither the registry nor the response. *)
Theorem TrackEmailOpen_waits_for_dispatch `{GoLib} (sw : notification.SenderWorld)
    (t : Tracker) (w : http.ResponseWriter) (r : http.Request)
    (trackingID baseURL : string) (world : OpenWorld) :
  transport_causal sw →
  let res :=
    TrackEmailOpen (notification.SendNotification sw) t w r trackingID baseURL world in
  let asked := match trackingData t !! trackingID with
               | Some email => NotifyOnOpen email
               | None => false
               end in
  let wait := match notification.template_err sw, notification.execute_err sw with
              | None, None =>
                  match notification.transport sw with
                  | notification.Replies after _ => Z.min after notify_timeout
                  | notification.Hangs => notify_timeout
                  end
              | _, _ => 0
              end in
  res_written_at res = now world + (if asked then wait else 0)
  ∧ now world ≤ res_written_at res ≤ now world + 10 * time.Second
  ∧ (∀ sender, res_tracker res
               = res_tracker (TrackEmailOpen sender t w r trackingID baseURL world))
  ∧ res_writer res = serve_pixel w.
Proof.
  intros Hc. cbv zeta.
  assert (Hw : res_written_at
      (TrackEmailOpen (notification.SendNotification sw) t w r trackingID baseURL world)
    = now world
      + (if match trackingData t !! trackingID with
            | Some email => NotifyOnOpen email
            | None => false
            end
         then match notification.template_err sw, notification.execute_err sw with
              | None, None =>
                  match notification.transport sw with
                  | notification.Replies after _ => Z.min after notify_timeout
                  | notification.Hangs => notify_timeout
                  end
              | _, _ => 0
              end
         else 0)).
  { unfold TrackEmailOpen.
    destruct (new_event _ _ _ _ _) as [event geoErr].
    unfold notify_open.
    destruct (trackingData t !! trackingID) as [email|]; simpl; [|done].
    destruct (NotifyOnOpen email); simpl; [|done].
    pose proof (SendNotification_elapsed sw notify_timeout [NotifyEmail email]
                  (notification_subject email) (notification_data email event)) as He.
    destruct (notification.SendNotification _ _ _ _ _) as [err elapsed].
    simpl in He. by rewrite He. }
  split; [exact Hw|]. split; [|split].
  - rewrite Hw. unfold transport_causal in Hc.
    change (10 * time.Second) with 10000000000.
    change notify_timeout with 10000000000.
    destruct (match trackingData t !! trackingID with
              | Some email => NotifyOnOpen email | None => false end); [|lia].
    destruct (notification.template_err sw); [lia|].
    destruct (notification.execute_err sw); [lia|].
    destruct (notification.transport sw); lia.
  - intros sender. by rewrite !TrackEmailOpen_tracker.
  - apply TrackEmailOpen_writer.
Qed.

Lemma TrackEmailOpen_waits_for_dispatch_witness :
  res_written_at
    (TrackEmailOpen (H := ipv4.lib) (notification.SendNotification hanging_transport)
       opted_in http.NewResponseWriter proxied_request "abc123"
       "http://localhost:8080" unreachable_geo)
  = 1000 + 10000000000.
Proof.
  destruct (TrackEmailOpen_waits_for_dispatch (H := ipv4.lib) hanging_transport
              opted_in http.NewResponseWriter proxied_request "abc123"
              "http://localhost:8080" unreachable_geo) as [Hw _]; [exact I|].
  exact Hw.
Defined.

(** ** The address of the client *)

Section client_ip.

Context `{GoLib}.





End client_ip.


Example GetClientIP_direct :
  utils.GetClientIP (H := ipv4.lib) direct_request = "localhost".
Proof. reflexivity. Qed.

Example GetClientIP_chain :
  utils.GetClientIP (H := ipv4.lib) proxied_request = "8.8.8.8".
Proof. reflexivity. Qed.

(** ** The identifier generator *)

Module base64_facts.

Import base64.

Lemma sextet_in (c : Z) : 0 ≤ c < 64 → In c sextets.
Proof.
  intros Hc. apply List.in_map_iff. exists (Z.to_nat c). split; [lia|].
  apply List.in_seq. lia.
Qed.

Lemma encode_checked (c : Z) :
  0 ≤ c < 64 → index_of (encode c) = Some c ∧ unreserved (encode c) = true.
Proof.
  intros Hc.
  assert (Hall : forallb (λ c, match index_of (encode c) with
                               | Some d => (d =? c) && unreserved (encode c)
                               | None => false
                               end) sextets = true) by (by vm_compute).
  rewrite List.forallb_forall in Hall.
  specialize (Hall c (sextet_in c Hc)).
  destruct (index_of (encode c)) as [d|]; [|done].
  apply andb_true_iff in Hall as [Hd Hu]. split; [f_equal; lia | done].
Qed.

Lemma encode_inj (c d : Z) :
  0 ≤ c < 64 → 0 ≤ d < 64 → encode c = encode d → c = d.
Proof.
  intros Hc Hd Heq.
  destruct (encode_checked c Hc) as [Hic _], (encode_checked d Hd) as [Hid _].
  congruence.
Qed.

Lemma encode_not_padding (c : Z) : 0 ≤ c < 64 → encode c ≠ StdPadding.
Proof.
  intros Hc Heq. destruct (encode_checked c Hc) as [_ Hu].
  rewrite Heq in Hu. discriminate.
Qed.

Lemma land_shiftl_small (a b n : Z) :
  0 ≤ n → 0 ≤ b < 2 ^ n → Z.land (Z.shiftl a n) b = 0.
Proof.
  intros Hn Hb. apply Z.bits_inj'. intros i Hi.
  rewrite Z.land_spec, Z.bits_0.
  destruct (Z.lt_ge_cases i n) as [Hlt|Hge].
  - by rewrite Z.shiftl_spec_low by lia.
  - replace b with (b mod 2 ^ n) by (apply Z.mod_small; lia).
    rewrite Z.mod_pow2_bits_high by lia. apply andb_false_r.
Qed.

Lemma lor_shiftl_add (a b n : Z) :
  0 ≤ n → 0 ≤ b < 2 ^ n → Z.lor (Z.shiftl a n) b = a * 2 ^ n + b.
Proof.
  intros Hn Hb. pose proof (land_shiftl_small a b n Hn Hb) as Hz.
  rewrite <- Z.lxor_lor by exact Hz.
  rewrite <- Z.add_nocarry_lxor by exact Hz.
  by rewrite Z.shiftl_mul_pow2 by lia.
Qed.

Lemma sextet_div (v k : Z) :
  0 ≤ k → Z.land (Z.shiftr v k) 0x3F = (v / 2 ^ k) mod 64.
Proof.
  intros Hk. rewrite Z.shiftr_div_pow2 by lia.
  change 0x3F with (Z.ones 6). by rewrite Z.land_ones by lia.
Qed.

Lemma sextet_low (v : Z) : Z.land v 0x3F = v mod 64.
Proof. change 0x3F with (Z.ones 6). by rewrite Z.land_ones by lia. Qed.

Lemma sextet_range (v : Z) : 0 ≤ v mod 64 < 64.
Proof. apply Z.mod_pos_bound. lia. Qed.

(** The value the encoder builds from one, two and three bytes. *)
Lemma val1 (x : Z) : Z.shiftl x 16 = x * 65536.
Proof. by rewrite Z.shiftl_mul_pow2 by lia. Qed.

Lemma val2 (x y : Z) :
  is_byte y → Z.lor (Z.shiftl x 16) (Z.shiftl y 8) = x * 65536 + y * 256.
Proof.
  intros Hy. replace (Z.shiftl x 16) with (Z.shiftl (Z.shiftl x 8) 8)
    by (rewrite Z.shiftl_shiftl by lia; done).
  rewrite <- Z.shiftl_lor, Z.shiftl_mul_pow2 by lia.
  rewrite lor_shiftl_add by (unfold is_byte in Hy; lia).
  change (2 ^ 8) with 256. lia.
Qed.

Lemma val3 (x y z : Z) :
  is_byte y → is_byte z →
  Z.lor (Z.lor (Z.shiftl x 16) (Z.shiftl y 8)) z = x * 65536 + y * 256 + z.
Proof.
  intros Hy Hz. rewrite val2 by done.
  replace (x * 65536 + y * 256) with (Z.shiftl (x * 256 + y) 8)
    by (rewrite Z.shiftl_mul_pow2 by lia; change (2 ^ 8) with 256; lia).
  rewrite lor_shiftl_add by (unfold is_byte in Hz; lia).
  rewrite Z.shiftl_mul_pow2 by lia. change (2 ^ 8) with 256. lia.
Qed.

(** The encoder, a group at a time, with the sextets as quotients. *)
Lemma Encode1 (x : Z) :
  let v := x * 65536 in
  EncodeToString [x]
  = String (encode ((v / 262144) mod 64))
      (String (encode ((v / 4096) mod 64)) (String StdPadding (String StdPadding ""))).
Proof.
  simpl. change (EncodeToString [x]) with
    (let val := Z.shiftl x 16 in
     String (encode (Z.land (Z.shiftr val 18) 0x3F))
       (String (encode (Z.land (Z.shiftr val 12) 0x3F))
         (String StdPadding (String StdPadding EmptyString)))).
  cbv zeta. by rewrite !sextet_div, val1 by lia.
Qed.

Lemma Encode2 (x y : Z) :
  is_byte y →
  let v := x * 65536 + y * 256 in
  EncodeToString [x; y]
  = String (encode ((v / 262144) mod 64))
      (String (encode ((v / 4096) mod 64))
        (String (encode ((v / 64) mod 64)) (String StdPadding ""))).
Proof.
  intros Hy. simpl. change (EncodeToString [x; y]) with
    (let val := Z.lor (Z.shiftl x 16) (Z.shiftl y 8) in
     String (encode (Z.land (Z.shiftr val 18) 0x3F))
       (String (encode (Z.land (Z.shiftr val 12) 0x3F))
         (String (encode (Z.land (Z.shiftr val 6) 0x3F))
           (String StdPadding EmptyString)))).
  cbv zeta. by rewrite !sextet_div, val2 by (done || lia).
Qed.

Lemma Encode3 (x y z : Z) (rest : list Z) :
  is_byte y → is_byte z →
  let v := x * 65536 + y * 256 + z in
  EncodeToString (x :: y :: z :: rest)
  = String (encode ((v / 262144) mod 64))
      (String (encode ((v / 4096) mod 64))
        (String (encode ((v / 64) mod 64))
          (String (encode (v mod 64)) (EncodeToString rest)))).
Proof.
  intros Hy Hz. simpl. change (EncodeToString (x :: y :: z :: rest)) with
    (let val := Z.lor (Z.lor (Z.shiftl x 16) (Z.shiftl y 8)) z in
     String (encode (Z.land (Z.shiftr val 18) 0x3F))
       (String (encode (Z.land (Z.shiftr val 12) 0x3F))
         (String (encode (Z.land (Z.shiftr val 6) 0x3F))
           (String (encode (Z.land val 0x3F)) (EncodeToString rest))))).
  cbv zeta. by rewrite !sextet_div, sextet_low, val3 by (done || lia).
Qed.

Lemma list_ind3 {A} (P : list A → Prop) :
  P [] → (∀ x, P [x]) → (∀ x y, P [x; y]) →
  (∀ x y z l, P l → P (x :: y :: z :: l)) →
  ∀ l, P l.
Proof.
  intros H0 H1 H2 H3 l.
  assert (G : P l ∧ (∀ x, P (x :: l)) ∧ (∀ x y, P (x :: y :: l))).
  { induction l as [|a l (IH0 & IH1 & IH2)]; [by split_and!|].
    split; [apply IH1|]. split; [intros x; apply IH2|].
    intros x y. by apply H3. }
  apply G.
Qed.

Ltac bytes_of H :=
  repeat match type of H with
         | Forall is_byte (_ :: _) => apply Forall_cons in H as [? H]
         end.

Ltac same_sextet H :=
  apply encode_inj in H; [|apply sextet_range..].

(** Distinct byte strings have distinct encodings. *)
Lemma EncodeToString_inj (b b' : list Z) :
  Forall is_byte b → Forall is_byte b' →
  EncodeToString b = EncodeToString b' → b = b'.
Proof.
  revert b'. induction b as [|x|x y|x y z b IH] using list_ind3;
    intros b' Hb Hb' Heq.
  - destruct b' as [|x' [|y' [|z' b']]]; [done|..]; bytes_of Hb';
      [rewrite Encode1 in Heq|rewrite Encode2 in Heq by done
      |rewrite Encode3 in Heq by done]; discriminate.
  - bytes_of Hb. rewrite Encode1 in Heq.
    destruct b' as [|x' [|y' [|z' b']]]; bytes_of Hb'.
    + discriminate.
    + rewrite Encode1 in Heq. cbv zeta in Heq.
      injection Heq as E1 E2. same_sextet E1. same_sextet E2.
      f_equal. unfold is_byte in *. Z.div_mod_to_equations. lia.
    + rewrite Encode2 in Heq by done. cbv zeta in Heq.
      injection Heq as _ _ E3. symmetry in E3.
      by apply encode_not_padding in E3; [|apply sextet_range].
    + rewrite Encode3 in Heq by done. cbv zeta in Heq.
      injection Heq as _ _ E3. symmetry in E3.
      by apply encode_not_padding in E3; [|apply sextet_range].
  - bytes_of Hb. rewrite Encode2 in Heq by done.
    destruct b' as [|x' [|y' [|z' b']]]; bytes_of Hb'.
    + discriminate.
    + rewrite Encode1 in Heq. cbv zeta in Heq.
      injection Heq as _ _ E3.
      by apply encode_not_padding in E3; [|apply sextet_range].
    + rewrite Encode2 in Heq by done. cbv zeta in Heq.
      injection Heq as E1 E2 E3. same_sextet E1. same_sextet E2. same_sextet E3.
      assert (x = x' ∧ y = y') as [-> ->]; [|done].
      unfold is_byte in *. Z.div_mod_to_equations. lia.
    + rewrite Encode3 in Heq by done. cbv zeta in Heq.
      injection Heq as _ _ _ E4. symmetry in E4.
      by apply encode_not_padding in E4; [|apply sextet_range].
  - bytes_of Hb. rewrite Encode3 in Heq by done.
    destruct b' as [|x' [|y' [|z' b']]]; bytes_of Hb'.
    + discriminate.
    + rewrite Encode1 in Heq. cbv zeta in Heq.
      injection Heq as _ _ E3.
      by apply encode_not_padding in E3; [|apply sextet_range].
    + rewrite Encode2 in Heq by done. cbv zeta in Heq.
      injection Heq as _ _ _ E4.
      by apply encode_not_padding in E4; [|apply sextet_range].
    + rewrite Encode3 in Heq by done. cbv zeta in Heq.
      injection Heq as E1 E2 E3 E4 Erest.
      same_sextet E1. same_sextet E2. same_sextet E3. same_sextet E4.
      assert (x = x' ∧ y = y' ∧ z = z') as (-> & -> & ->).
      { unfold is_byte in *. Z.div_mod_to_equations. lia. }
      f_equal. f_equal. f_equal. by apply IH.
Qed.

Lemma encode_sextet_unreserved (v : Z) : unreserved (encode (v mod 64)) = true.
Proof. apply encode_checked, sextet_range. Qed.

(** The encoding of [3 * k + 2] bytes: [4 * k + 3] characters of
    the alphabet and one padding character at the end. *)
Lemma EncodeToString_shape (k : nat) (b : list Z) :
  Forall is_byte b → length b = (3 * k + 2)%nat →
  String.length (EncodeToString b) = (4 * k + 4)%nat
  ∧ ∃ body, EncodeToString b = body +:+ "="
            ∧ String.length body = (4 * k + 3)%nat
            ∧ all_chars unreserved body = true.
Proof.
  revert b. induction k as [|k IH]; intros b Hb Hlen.
  - destruct b as [|x [|y [|z b]]]; try discriminate Hlen.
    bytes_of Hb. rewrite Encode2 by done. cbv zeta. split; [done|].
    eexists (String _ (String _ (String _ ""))).
    split; [reflexivity|]. split; [done|].
    simpl. by rewrite !encode_sextet_unreserved.
  - destruct b as [|x [|y [|z b]]]; try (simpl in Hlen; lia).
    bytes_of Hb. rewrite Encode3 by done. cbv zeta.
    destruct (IH b) as (Hl & body & Hbody & Hlb & Hchars); [done|simpl in Hlen; lia|].
    split; [simpl; rewrite Hl; lia|].
    exists (String (encode (((x * 65536 + y * 256 + z) / 262144) mod 64))
             (String (encode (((x * 65536 + y * 256 + z) / 4096) mod 64))
               (String (encode (((x * 65536 + y * 256 + z) / 64) mod 64))
                 (String (encode ((x * 65536 + y * 256 + z) mod 64)) body)))).
    split; [simpl; by rewrite Hbody|]. split; [simpl; rewrite Hlb; lia|].
    simpl. by rewrite !encode_sextet_unreserved.
Qed.

End base64_facts.

(** [Read] fills the buffer it is given, with bytes. *)
Lemma rand_Read_fills (rand : RandSource) (n : nat) (bs : list Z) :
  rand_Read rand n = inl bs → length bs = n ∧ Forall is_byte bs.
Proof.
  unfold rand_Read. destruct (rand_err rand); [done|]. intros [= <-].
  split; [by rewrite length_fmap, length_seq|].
  apply Forall_fmap, Forall_forall. intros i _. simpl. unfold is_byte.
  pose proof (Byte.to_N_bounded (rand_stream rand i)). lia.
Qed.

(** C9, refuted: [base64.URLEncoding] is the padded encoding, and 32
    bytes leave one padding character.  The identifier drawn from the
    counting source ends in ["="], which is none of the characters that
    stand for themselves in every part of a URL. *)
Lemma GenerateTrackingID_not_url_safe : ¬ identifier_url_safe counting_source.
Proof.
  intros Hsafe. specialize (Hsafe eq_refl). by vm_compute in Hsafe.
Qed.

(** C9, amended. [GenerateTrackingID] asks the random source for 32
    bytes.  When the source fills the buffer, the identifier is the
    padded URL encoding of the 32 bytes and no error is returned: 44
    characters, of which the first 43 are letters, digits, hyphens or
    underscores and the last is the one padding character ["="]; two
    different buffers never give the same identifier, so the identifier
    keeps the 256 bits drawn.  When the source fails, the error of the
    source is returned with the empty string, and there is no other
    error. *)
Theorem GenerateTrackingID_spec (rand : RandSource) :
  match rand_Read rand 32 with
  | inl b =>
      length b = 32%nat
      ∧ GenerateTrackingID rand = (base64.EncodeToString b, None)
      ∧ String.length (GenerateTrackingID rand).1 = 44%nat
      ∧ (∃ body, (GenerateTrackingID rand).1 = body +:+ "="
                 ∧ String.length body = 43%nat
                 ∧ base64.all_chars base64.unreserved body = true)
      ∧ (∀ rand' b', rand_Read rand' 32 = inl b' →
           (GenerateTrackingID rand').1 = (GenerateTrackingID rand).1 → b' = b)
  | inr err => GenerateTrackingID rand = ("", Some err)
  end.
Proof.
  unfold GenerateTrackingID.
  destruct (rand_Read rand 32) as [b|err] eqn:Hread; [|done].
  destruct (rand_Read_fills rand 32 b Hread) as [Hlen Hbytes].
  destruct (base64_facts.EncodeToString_shape 10 b Hbytes Hlen) as [Hl Hshape].
  split_and!; try done.
  intros rand' b' Hread' Heq. rewrite Hread' in Heq. simpl in Heq.
  destruct (rand_Read_fills rand' 32 b' Hread') as [_ Hbytes'].
  by apply base64_facts.EncodeToString_inj.
Qed.

Example GenerateTrackingID_counting :
  GenerateTrackingID counting_source
  = ("AAECAwABAgMAAQIDAAECAwABAgMAAQIDAAECAwABAgM=", None).
Proof. reflexivity. Qed.

Example GenerateTrackingID_exhausted :
  GenerateTrackingID exhausted_source = ("", Some "entropy source unavailable").
Proof. reflexivity. Qed.

Lemma GenerateTrackingID_spec_witness :
  String.length (GenerateTrackingID counting_source).1 = 44%nat
  ∧ GenerateTrackingID exhausted_source = ("", Some "entropy source unavailable").
Proof.
  pose proof (GenerateTrackingID_spec counting_source) as Hc.
  pose proof (GenerateTrackingID_spec exhausted_source) as He.
  simpl in Hc, He. destruct Hc as (_ & _ & Hl & _).
  split; [exact Hl | exact He].
Defined.

(** ** Handlers that run at the same time *)

(** C1, refuted: two handlers record an open of ["abc123"] on the new
    registry.  Both read the empty history before either stores, each
    stores a history of one event, and the second store overwrites the
    first: both have finished and the history holds one event. *)
Lemma interleaved_opens_lose_an_event :
  ¬ no_lost_event [0; 1; 0; 1; 0; 1]%nat
      [λ owner, mk_event "abc123" owner 10; λ owner, mk_event "abc123" owner 20]
      "abc123" NewTracker.
Proof.
  unfold no_lost_event. intros Hn.
  assert (Hfin : all_finished
    (run [0; 1; 0; 1; 0; 1]%nat
       (AtLookup "abc123" <$>
          [λ owner, mk_event "abc123" owner 10; λ owner, mk_event "abc123" owner 20],
        NewTracker)).1).
  { vm_compute. by repeat constructor. }
  specialize (Hn Hfin). vm_compute in Hn. discriminate Hn.
Qed.

Lemma step_pool_middle (finished : list Handler) (h : Handler) (waiting : list Handler)
    (t : Tracker) :
  step_pool (length finished) (finished ++ h :: waiting, t)
  = (finished ++ (step_handler h t).1 :: waiting, (step_handler h t).2).
Proof.
  unfold step_pool. simpl. rewrite list_lookup_middle by done.
  destruct (step_handler h t) as [h' t']. simpl. f_equal.
  rewrite insert_app_r_alt by lia. by rewrite Nat.sub_diag.
Qed.

(** The three steps of a handler, with no other handler in between,
    are the append of line 108 on the registry it started from. *)
Lemma handler_alone (finished waiting : list Handler) (trackingID : string)
    (mk : string → TrackingEvent) (t : Tracker) :
  let i := length finished in
  run [i; i; i] (finished ++ AtLookup trackingID mk :: waiting, t)
  = (finished ++ Finished :: waiting,
     append_event t trackingID (mk (owner_of t trackingID))).
Proof.
  simpl. rewrite step_pool_middle. simpl.
  rewrite step_pool_middle. simpl.
  rewrite step_pool_middle. simpl. done.
Qed.

Lemma run_app (s1 s2 : list nat) (c : list Handler * Tracker) :
  run (s1 ++ s2) c = run s2 (run s1 c).
Proof. revert c. induction s1 as [|i s1 IH]; intros c; [done|]. apply IH. Qed.

Lemma run_serial (finished : list Handler) (trackingID : string)
    (calls : list (string → TrackingEvent)) (t : Tracker) :
  run (serial (length finished) (length calls))
      (finished ++ (AtLookup trackingID <$> calls), t)
  = (finished ++ replicate (length calls) Finished, record_all trackingID calls t).
Proof.
  revert finished t. induction calls as [|mk calls IH]; intros finished t; [done|].
  rewrite fmap_cons.
  change (serial (length finished) (length (mk :: calls)))
    with ([length finished; length finished; length finished]
          ++ serial (S (length finished)) (length calls)).
  rewrite run_app, handler_alone.
  specialize (IH (finished ++ [Finished])
                 (append_event t trackingID (mk (owner_of t trackingID)))).
  rewrite length_app, Nat.add_1_r, <- !app_assoc in IH.
  etrans; [exact IH|]. done.
Qed.

Lemma record_all_history (trackingID : string) (calls : list (string → TrackingEvent))
    (t : Tracker) :
  trackingData (record_all trackingID calls t) = trackingData t
  ∧ events_at (trackingEvents (record_all trackingID calls t)) trackingID
    = events_at (trackingEvents t) trackingID
      ++ ((λ mk, mk (owner_of t trackingID)) <$> calls).
Proof.
  revert t. induction calls as [|mk calls IH]; intros t.
  - simpl. by rewrite app_nil_r.
  - change (record_all trackingID (mk :: calls) t)
      with (record_all trackingID calls
              (append_event t trackingID (mk (owner_of t trackingID)))).
    destruct (IH (append_event t trackingID (mk (owner_of t trackingID)))) as [Hd He].
    rewrite Hd, He. split; [done|].
    unfold events_at at 1. rewrite append_event_lookup, decide_True by done.
    simpl. rewrite <- app_assoc. done.
Qed.

(** C1, amended. The registry takes no lock.  When the handlers run
    one after another, each call is atomic: every handler finishes, a
    call does what [TrackEmailOpen] does to the registry, and [n] opens
    of one identifier leave its history longer by exactly [n], the new
    events in the order of the calls. *)
Theorem serial_opens_keep_every_event (trackingID : string)
    (calls : list (string → TrackingEvent)) (t : Tracker) :
  let c := run (serial 0 (length calls)) (AtLookup trackingID <$> calls, t) in
  all_finished c.1
  ∧ c.2 = record_all trackingID calls t
  ∧ events_at (trackingEvents c.2) trackingID
    = events_at (trackingEvents t) trackingID
      ++ ((λ mk, mk (owner_of t trackingID)) <$> calls)
  ∧ length (events_at (trackingEvents c.2) trackingID)
    = (length (events_at (trackingEvents t) trackingID) + length calls)%nat
  ∧ no_lost_event (serial 0 (length calls)) calls trackingID t.
Proof.
  cbv zeta. unfold no_lost_event.
  pose proof (run_serial [] trackingID calls t) as Hrun. simpl in Hrun.
  rewrite Hrun. simpl.
  destruct (record_all_history trackingID calls t) as [_ He].
  split_and!.
  - apply Forall_replicate. done.
  - done.
  - done.
  - by rewrite He, length_app, length_fmap.
  - intros _. by rewrite He, length_app, length_fmap.
Qed.

(** The handler of the model is [TrackEmailOpen]: run alone, it leaves
    the registry that [TrackEmailOpen] leaves. *)
Lemma handler_is_TrackEmailOpen `{GoLib} (sender : NotificationSender) (t : Tracker)
    (w : http.ResponseWriter) (r : http.Request) (trackingID baseURL : string)
    (world : OpenWorld) :
  (run [0; 0; 0]%nat
     ([AtLookup trackingID (λ owner, (new_event r trackingID baseURL world owner).1)], t)).2
  = res_tracker (TrackEmailOpen sender t w r trackingID baseURL world).
Proof.
  rewrite TrackEmailOpen_tracker.
  exact (f_equal snd (handler_alone [] [] trackingID
    (λ owner, (new_event r trackingID baseURL world owner).1) t)).
Qed.


(** ** Splitting and joining *)

Module split_facts.

Import strings gostrings.

Lemma Split_not_nil (s : string) (c : ascii) : Split s c ≠ [].
Proof.
  destruct s as [|a s]; [done|]. simpl.
  destruct (Ascii.eqb a c); [done|]. by destruct (Split s c).
Qed.

Lemma Count_app (a b : string) (c : ascii) :
  Count (a +:+ b) c = (Count a c + Count b c)%nat.
Proof. induction a as [|x a IH]; simpl; [done|]. rewrite IH. lia. Qed.

Lemma string_length_app (a b : string) :
  String.length (a +:+ b) = (String.length a + String.length b)%nat.
Proof. induction a as [|x a IH]; simpl; [done|]. by rewrite IH. Qed.

Lemma Count_cons_0 (a : ascii) (s : string) (c : ascii) :
  Count (String a s) c = O → a ≠ c ∧ Count s c = O.
Proof.
  simpl. destruct (Ascii.eqb_spec a c); [lia|]. intros Hc. split; [done|lia].
Qed.

(** The first separator ends the first piece. *)
Lemma Split_app (u d : string) (c : ascii) :
  Count u c = O → Split (u +:+ String c d) c = u :: Split d c.
Proof.
  induction u as [|a u IH]; intros Hu; simpl.
  - by rewrite Ascii.eqb_refl.
  - apply Count_cons_0 in Hu as [Hne Hu].
    destruct (Ascii.eqb_spec a c); [done|]. by rewrite IH.
Qed.

Lemma Split_none (s : string) (c : ascii) : Count s c = O → Split s c = [s].
Proof.
  induction s as [|a s IH]; intros Hs; simpl; [done|].
  apply Count_cons_0 in Hs as [Hne Hs].
  destruct (Ascii.eqb_spec a c); [done|]. by rewrite IH.
Qed.

(** One piece more than there are separators. *)
Lemma Split_length (s : string) (c : ascii) :
  length (Split s c) = S (Count s c).
Proof.
  induction s as [|a s IH]; simpl; [done|].
  destruct (Ascii.eqb a c); simpl; [by rewrite IH|].
  pose proof (Split_not_nil s c).
  destruct (Split s c) as [|p ps]; [done|]. simpl in *. lia.
Qed.

(** No piece holds the separator. *)
Lemma Split_pieces (s : string) (c : ascii) :
  Forall (λ piece, Count piece c = O) (Split s c).
Proof.
  induction s as [|a s IH]; simpl; [by repeat constructor|].
  destruct (Ascii.eqb_spec a c) as [->|Hne]; [by constructor|].
  destruct (Split s c) as [|p ps]; [repeat constructor; simpl|].
  - by destruct (Ascii.eqb_spec a c).
  - apply Forall_cons in IH as [Hp Hps]. constructor; [|done].
    simpl. by destruct (Ascii.eqb_spec a c).
Qed.

(** Joining the pieces with the separator gives the string back. *)
Lemma Join_Split (s : string) (c : ascii) :
  Join (Split s c) (String c EmptyString) = s.
Proof.
  induction s as [|a s IH]; simpl; [done|].
  pose proof (Split_not_nil s c) as Hn.
  destruct (Ascii.eqb_spec a c) as [->|Hne].
  - destruct (Split s c) as [|p ps]; [done|].
    change (Join ("" :: p :: ps) (String c ""))
      with (String c (Join (p :: ps) (String c ""))).
    by rewrite IH.
  - destruct (Split s c) as [|p [|q qs]]; [done|..].
    + simpl in *. by rewrite IH.
    + change (Join (String a p :: q :: qs) (String c ""))
        with (String a (Join (p :: q :: qs) (String c ""))).
      by rewrite IH.
Qed.

(** Exactly two pieces: the string is the two pieces around the one
    separator. *)
Lemma Split_two (s u d : string) (c : ascii) :
  Split s c = [u; d] →
  s = u +:+ String c d ∧ Count u c = O ∧ Count d c = O ∧ Count s c = 1%nat.
Proof.
  intros Hs.
  pose proof (Join_Split s c) as Hj. rewrite Hs in Hj.
  pose proof (Split_pieces s c) as Hp. rewrite Hs in Hp.
  pose proof (Split_length s c) as Hl. rewrite Hs in Hl.
  apply Forall_cons in Hp as [Hu Hp]. apply Forall_cons in Hp as [Hd _].
  split_and!; [by rewrite <- Hj|done|done|simpl in Hl; lia].
Qed.

Lemma Split_one_sep (s : string) (c : ascii) :
  Count s c = 1%nat → ∃ u d, Split s c = [u; d].
Proof.
  intros Hc. pose proof (Split_length s c) as Hl. rewrite Hc in Hl.
  destruct (Split s c) as [|u [|d [|x xs]]]; try discriminate Hl. by exists u, d.
Qed.

End split_facts.

(** ** The helpers on addresses of mail *)

Module email_facts.

Import strings gostrings utils_email.

(** The conversion of a byte never yields the byte ["@"], and yields
    the byte itself below 0x80. *)
Lemma string_of_byte_no_at (b : ascii) :
  b ≠ "@"%char → Count (string_of_byte b) "@" = O.
Proof.
  intros Hb. unfold string_of_byte.
  destruct (nat_of_ascii b <? 128)%nat eqn:Hlt.
  - simpl. by destruct (Ascii.eqb_spec b "@").
  - apply Nat.ltb_ge in Hlt.
    pose proof (nat_ascii_bounded b) as Hbound.
    assert (Hq : (nat_of_ascii b / 64 = 2 ∨ nat_of_ascii b / 64 = 3)%nat).
    { assert (2 ≤ nat_of_ascii b / 64 < 4)%nat; [|lia].
      split; [apply Nat.div_le_lower_bound; lia | apply Nat.Div0.div_lt_upper_bound; lia]. }
    assert (Hr : (nat_of_ascii b mod 64 < 64)%nat) by (apply Nat.mod_upper_bound; lia).
    assert (H1 : ascii_of_nat (192 + nat_of_ascii b / 64) ≠ "@"%char).
    { intros Heq. apply (f_equal nat_of_ascii) in Heq.
      rewrite nat_ascii_embedding in Heq by lia.
      change (nat_of_ascii "@") with 64%nat in Heq. lia. }
    assert (H2 : ascii_of_nat (128 + nat_of_ascii b mod 64) ≠ "@"%char).
    { intros Heq. apply (f_equal nat_of_ascii) in Heq.
      rewrite nat_ascii_embedding in Heq by lia.
      change (nat_of_ascii "@") with 64%nat in Heq. lia. }
    cbn [Count].
    destruct (Ascii.eqb_spec (ascii_of_nat (192 + nat_of_ascii b / 64)) "@"); [done|].
    by destruct (Ascii.eqb_spec (ascii_of_nat (128 + nat_of_ascii b mod 64)) "@").
Qed.

Lemma last_byte_no_at (s : string) (d : ascii) :
  d ≠ "@"%char → Count s "@" = O → last_byte s d ≠ "@"%char.
Proof.
  revert d. induction s as [|a s IH]; intros d Hd Hs; [done|].
  apply split_facts.Count_cons_0 in Hs as [Ha Hs]. simpl. by apply IH.
Qed.

(** The masked name has no ["@"]. *)
Lemma masked_no_at (first : ascii) (rest : string) :
  Count (String first rest) "@" = O →
  Count (string_of_byte first +:+ "***"
         +:+ string_of_byte (last_byte (String first rest) first)) "@" = O.
Proof.
  intros Hu. pose proof Hu as Hu'.
  apply split_facts.Count_cons_0 in Hu' as [Hf _].
  rewrite !split_facts.Count_app, string_of_byte_no_at by done.
  rewrite string_of_byte_no_at by (by apply last_byte_no_at).
  done.
Qed.

Lemma ExtractDomain_app (u d : string) :
  Count u "@" = O → Count d "@" = O → ExtractDomain (u +:+ "@" +:+ d) = d.
Proof.
  intros Hu Hd. unfold ExtractDomain.
  change (u +:+ "@" +:+ d) with (u +:+ String "@" d).
  by rewrite split_facts.Split_app, split_facts.Split_none.
Qed.

(** What [MaskEmail] returns: the address itself, or the masked name
    in front of the domain. *)
Lemma MaskEmail_cases (email : string) :
  MaskEmail email = email
  ∨ ∃ first rest domain,
      Split email "@" = [String first rest; domain]
      ∧ MaskEmail email
        = (string_of_byte first +:+ "***"
           +:+ string_of_byte (last_byte (String first rest) first))
          +:+ "@" +:+ domain.
Proof.
  unfold MaskEmail.
  destruct (String.length email <? 5)%nat; [by left|].
  destruct (Split email "@") as [|username [|domain [|x xs]]] eqn:Hs; try by left.
  destruct (2 <? String.length username)%nat.
  - destruct username as [|first rest]; [by left|].
    right. by exists first, rest, domain.
  - left. by apply split_facts.Split_two in Hs as [-> _].
Qed.

(** X1. [ExtractDomain] returns the part after the ["@"] exactly when
    the address has one ["@"], and the empty string otherwise; what it
    returns never holds an ["@"]. *)
Theorem ExtractDomain_one_at (email : string) :
  (Count email "@" = 1%nat →
     ∃ user, email = user +:+ "@" +:+ ExtractDomain email ∧ Count user "@" = O)
  ∧ (Count email "@" ≠ 1%nat → ExtractDomain email = "")
  ∧ Count (ExtractDomain email) "@" = O.
Proof.
  unfold ExtractDomain. split_and!.
  - intros Hc. destruct (split_facts.Split_one_sep email "@" Hc) as (u & d & Hs).
    rewrite Hs. exists u.
    by apply split_facts.Split_two in Hs as (-> & Hu & _).
  - intros Hc. pose proof (split_facts.Split_length email "@") as Hl.
    destruct (Split email "@") as [|u [|d [|x xs]]]; try done.
    simpl in Hl. lia.
  - destruct (Split email "@") as [|u [|d [|x xs]]] eqn:Hs; try done.
    by apply split_facts.Split_two in Hs as (_ & _ & Hd & _).
Qed.

Lemma ExtractDomain_one_at_witness :
  ExtractDomain "alice@example.com" = "example.com" ∧ ExtractDomain "a@b@c" = "".
Proof.
  destruct (ExtractDomain_one_at "a@b@c") as (_ & Hn & _).
  split; [reflexivity|]. apply Hn. by vm_compute.
Defined.

(** X2. [MaskEmail] never touches the domain: the masked address has
    the domain of the address. *)
Theorem MaskEmail_keeps_domain (email : string) :
  ExtractDomain (MaskEmail email) = ExtractDomain email.
Proof.
  destruct (MaskEmail_cases email) as [->|(first & rest & domain & Hs & ->)]; [done|].
  unfold ExtractDomain at 2. rewrite Hs.
  apply split_facts.Split_two in Hs as (_ & Hu & Hd & _).
  apply ExtractDomain_app; [|done]. by apply masked_no_at.
Qed.

(** An address with one ["@"], split and measured. *)
Lemma address_split (user domain : string) :
  Count user "@" = O → Count domain "@" = O →
  Split (user +:+ "@" +:+ domain) "@" = [user; domain]
  ∧ String.length (user +:+ "@" +:+ domain)
    = (String.length user + 1 + String.length domain)%nat.
Proof.
  intros Hu Hd. change (user +:+ "@" +:+ domain) with (user +:+ String "@" domain).
  split.
  - by rewrite split_facts.Split_app, split_facts.Split_none.
  - rewrite split_facts.string_length_app. simpl. lia.
Qed.

(** X3. On [user@domain] (no ["@"] in either), [MaskEmail] keeps the
    first and the last byte of the name, with three stars between
    them, when the name is longer than two bytes and the address has at
    least five; a shorter name, or a shorter address, is returned as it
    is, unmasked. *)
Theorem MaskEmail_shape (user domain : string) :
  Count user "@" = O → Count domain "@" = O →
  MaskEmail (user +:+ "@" +:+ domain)
  = match user with
    | String first rest =>
        if (2 <? String.length user)%nat
           && (5 <=? String.length user + 1 + String.length domain)%nat
        then (string_of_byte first +:+ "***"
              +:+ string_of_byte (last_byte rest first)) +:+ "@" +:+ domain
        else user +:+ "@" +:+ domain
    | EmptyString => "@" +:+ domain
    end.
Proof.
  intros Hu Hd. unfold MaskEmail.
  destruct (address_split user domain Hu Hd) as [Hs Hl].
  rewrite Hl, Hs.
  destruct user as [|first rest].
  - simpl. by destruct (_ <? _)%nat.
  - destruct (Nat.ltb_spec (String.length (String first rest) + 1 + String.length domain) 5),
             (Nat.ltb_spec 2 (String.length (String first rest))),
             (Nat.leb_spec 5 (String.length (String first rest) + 1 + String.length domain));
      simpl; try done; lia.
Qed.

Lemma MaskEmail_shape_witness :
  MaskEmail ("alice" +:+ "@" +:+ "example.com") = "a***e@example.com"
  ∧ MaskEmail ("al" +:+ "@" +:+ "example.com") = "al@example.com"
  ∧ MaskEmail ("abc" +:+ "@" +:+ "") = "abc@".
Proof.
  split_and!.
  - rewrite (MaskEmail_shape "alice" "example.com"); reflexivity.
  - rewrite (MaskEmail_shape "al" "example.com"); reflexivity.
  - rewrite (MaskEmail_shape "abc" ""); reflexivity.
Defined.

Lemma ascii_only_app (a b : string) :
  ascii_only (a +:+ b) = ascii_only a && ascii_only b.
Proof. induction a as [|x a IH]; simpl; [done|]. by rewrite IH, andb_assoc. Qed.

Lemma last_byte_ascii (s : string) (d : ascii) :
  (nat_of_ascii d <? 128)%nat = true → ascii_only s = true →
  (nat_of_ascii (last_byte s d) <? 128)%nat = true.
Proof.
  revert d. induction s as [|a s IH]; intros d Hd Hs; [done|].
  simpl in Hs. apply andb_true_iff in Hs as [Ha Hs]. simpl. by apply IH.
Qed.

Lemma string_of_byte_ascii (b : ascii) :
  (nat_of_ascii b <? 128)%nat = true → string_of_byte b = String b "".
Proof. intros Hb. unfold string_of_byte. by rewrite Hb. Qed.

(** X4. On an address whose bytes are all below 0x80, masking a masked
    address changes nothing. *)
Theorem MaskEmail_idempotent (email : string) :
  ascii_only email = true → MaskEmail (MaskEmail email) = MaskEmail email.
Proof.
  intros Ha.
  destruct (MaskEmail_cases email) as [Hm|(first & rest & domain & Hs & Hm)];
    [by rewrite !Hm|].
  rewrite Hm.
  apply split_facts.Split_two in Hs as (He & Hu & Hd & _).
  rewrite He in Ha. rewrite ascii_only_app in Ha.
  apply andb_true_iff in Ha as [Hau _].
  pose proof Hau as Hau'. simpl in Hau'. apply andb_true_iff in Hau' as [Hf _].
  pose proof (last_byte_ascii (String first rest) first Hf Hau) as Hlast.
  rewrite (string_of_byte_ascii first Hf), (string_of_byte_ascii _ Hlast).
  assert (Hno : last_byte (String first rest) first ≠ "@"%char).
  { apply last_byte_no_at; [|done]. by apply split_facts.Count_cons_0 in Hu as [? _]. }
  set (l := last_byte (String first rest) first) in *.
  assert (Hmasked : Count (String first "" +:+ "***" +:+ String l "") "@" = O).
  { apply split_facts.Count_cons_0 in Hu as [Hfne _]. simpl.
    destruct (Ascii.eqb_spec first "@"); [done|].
    by destruct (Ascii.eqb_spec l "@"). }
  destruct (address_split _ domain Hmasked Hd) as [Hs Hl].
  unfold MaskEmail. rewrite Hs, Hl. simpl.
  by rewrite (string_of_byte_ascii first Hf), (string_of_byte_ascii l Hlast).
Qed.

Lemma MaskEmail_idempotent_witness :
  MaskEmail (MaskEmail "alice@example.com") = MaskEmail "alice@example.com".
Proof. apply MaskEmail_idempotent. reflexivity. Defined.

(** Above 0x80 it can change something: the byte 0xC2 converts to the
    bytes 0xC3 0x82, whose first byte converts to 0xC3 0x83. *)
Example MaskEmail_twice_differs :
  let email := String (ascii_of_nat 194) "bc@example.com" in
  MaskEmail (MaskEmail email) ≠ MaskEmail email.
Proof. vm_compute. discriminate. Qed.

End email_facts.

(** ** The identifier of an event *)

Module uuid_facts.

Import gostrings.

Lemma hex_digit_inj (a b : Z) :
  0 ≤ a < 16 → 0 ≤ b < 16 → utils.hex_digit a = utils.hex_digit b → a = b.
Proof.
  intros Ha Hb. unfold utils.hex_digit.
  destruct (Z.ltb_spec a 10), (Z.ltb_spec b 10); intros Heq;
    apply (f_equal nat_of_ascii) in Heq;
    rewrite !nat_ascii_embedding in Heq by lia; lia.
Qed.

Lemma hex_digit_is_hex (a : Z) :
  0 ≤ a < 16 → is_lower_hex (utils.hex_digit a) = true.
Proof.
  intros Ha.
  assert (Hall : forallb (λ a, is_lower_hex (utils.hex_digit a))
                   (Z.of_nat <$> seq 0 16) = true) by (by vm_compute).
  rewrite List.forallb_forall in Hall. apply Hall.
  apply List.in_map_iff. exists (Z.to_nat a). split; [lia|].
  apply List.in_seq. lia.
Qed.

Lemma high_nibble (x : Z) : is_byte x → 0 ≤ Z.shiftr x 4 < 16.
Proof.
  unfold is_byte. intros Hx. rewrite Z.shiftr_div_pow2 by lia.
  change (2 ^ 4) with 16. Z.div_mod_to_equations. lia.
Qed.

Lemma low_nibble (x : Z) : 0 ≤ Z.land x 15 < 16.
Proof.
  change 15 with (Z.ones 4). rewrite Z.land_ones by lia.
  apply Z.mod_pos_bound. lia.
Qed.

Lemma byte_of_nibbles (x y : Z) :
  is_byte x → is_byte y →
  utils.hex_digit (Z.shiftr x 4) = utils.hex_digit (Z.shiftr y 4) →
  utils.hex_digit (Z.land x 15) = utils.hex_digit (Z.land y 15) →
  x = y.
Proof.
  intros Hx Hy Hh Hl.
  apply hex_digit_inj in Hh; [|by apply high_nibble..].
  apply hex_digit_inj in Hl; [|apply low_nibble..].
  rewrite !Z.shiftr_div_pow2 in Hh by lia.
  change 15 with (Z.ones 4) in Hl. rewrite !Z.land_ones in Hl by lia.
  change (2 ^ 4) with 16 in *. unfold is_byte in *.
  Z.div_mod_to_equations. lia.
Qed.

Lemma hex_length (bs : list Z) : String.length (utils.hex bs) = (2 * length bs)%nat.
Proof. induction bs as [|b bs IH]; simpl; [done|]. rewrite IH. lia. Qed.

Lemma hex_is_hex (bs : list Z) :
  Forall is_byte bs → base64.all_chars is_lower_hex (utils.hex bs) = true.
Proof.
  induction 1 as [|b bs Hb Hbs IH]; [done|].
  cbn [utils.hex base64.all_chars].
  by rewrite hex_digit_is_hex, hex_digit_is_hex, IH
    by (apply low_nibble || by apply high_nibble).
Qed.

Lemma hex_inj (bs bs' : list Z) :
  Forall is_byte bs → Forall is_byte bs' →
  utils.hex bs = utils.hex bs' → bs = bs'.
Proof.
  intros Hb. revert bs'. induction Hb as [|b bs Hb Hbs IH]; intros bs' Hb' Heq.
  - by destruct bs'.
  - destruct Hb' as [|b' bs' Hb' Hbs']; [done|].
    cbn [utils.hex] in Heq. injection Heq as Hh Hl Hrest.
    f_equal; [by apply byte_of_nibbles | by apply IH].
Qed.

Lemma append_inj_length (a b a' b' : string) :
  String.length a = String.length a' → a +:+ b = a' +:+ b' → a = a' ∧ b = b'.
Proof.
  revert a'. induction a as [|x a IH]; intros [|x' a'] Hl Heq; try done.
  simpl in Hl, Heq. injection Heq as -> Heq.
  destruct (IH a') as [-> ->]; [lia|done|done].
Qed.

Lemma append_nil_l (s : string) : "" +:+ s = s.
Proof. reflexivity. Qed.

Lemma slice_length (b : list Z) (lo hi : nat) :
  (hi ≤ length b)%nat → length (utils.slice b lo hi) = (hi - lo)%nat.
Proof. intros Hb. unfold utils.slice. rewrite length_take, length_drop. lia. Qed.

Lemma slice_bytes (b : list Z) (lo hi : nat) :
  Forall is_byte b → Forall is_byte (utils.slice b lo hi).
Proof. intros Hb. unfold utils.slice. by apply Forall_take, Forall_drop. Qed.

Lemma slices_cover (b : list Z) :
  b = utils.slice b 0 4 ++ utils.slice b 4 6 ++ utils.slice b 6 8
      ++ utils.slice b 8 10 ++ drop 10 b.
Proof.
  unfold utils.slice. simpl Nat.sub. rewrite drop_0.
  rewrite <- (take_drop 4 b) at 1. f_equal.
  rewrite <- (take_drop 2 (drop 4 b)) at 1. f_equal. rewrite drop_drop.
  rewrite <- (take_drop 2 (drop (4 + 2) b)) at 1. f_equal. rewrite drop_drop.
  rewrite <- (take_drop 2 (drop (4 + 2 + 2) b)) at 1. f_equal. by rewrite drop_drop.
Qed.

(** X5. On a buffer of 16 bytes [GenerateUUID] returns 36 characters
    in the groups 8-4-4-4-12: lower-case hexadecimal digits with a
    hyphen between the groups; and two different buffers give two
    different identifiers. *)
Theorem GenerateUUID_format (b : list Z) :
  length b = 16%nat → Forall is_byte b →
  (∃ g1 g2 g3 g4 g5,
      utils.GenerateUUID b = g1 +:+ "-" +:+ g2 +:+ "-" +:+ g3 +:+ "-" +:+ g4 +:+ "-" +:+ g5
      ∧ (String.length g1 = 8 ∧ String.length g2 = 4 ∧ String.length g3 = 4
         ∧ String.length g4 = 4 ∧ String.length g5 = 12)%nat
      ∧ Forall (λ g, base64.all_chars is_lower_hex g = true) [g1; g2; g3; g4; g5])
  ∧ String.length (utils.GenerateUUID b) = 36%nat
  ∧ (∀ b', length b' = 16%nat → Forall is_byte b' →
       utils.GenerateUUID b' = utils.GenerateUUID b → b' = b).
Proof.
  intros Hlen Hbytes.
  assert (Hl5 : length (drop 10 b) = 6%nat) by (rewrite length_drop; lia).
  split_and!.
  - exists (utils.hex (utils.slice b 0 4)), (utils.hex (utils.slice b 4 6)),
      (utils.hex (utils.slice b 6 8)), (utils.hex (utils.slice b 8 10)),
      (utils.hex (drop 10 b)).
    split; [done|]. split.
    + rewrite !hex_length, !slice_length, Hl5 by lia. done.
    + repeat (apply Forall_cons; split;
              [apply hex_is_hex; (by apply slice_bytes) || by apply Forall_drop|]).
      constructor.
  - unfold utils.GenerateUUID.
    rewrite !split_facts.string_length_app, !hex_length, !slice_length, Hl5 by lia.
    done.
  - intros b' Hlen' Hbytes' Heq. unfold utils.GenerateUUID in Heq.
    apply append_inj_length in Heq as [H1 Heq];
      [|rewrite !hex_length, !slice_length by lia; done].
    injection Heq as Heq. rewrite !append_nil_l in Heq.
    apply append_inj_length in Heq as [H2 Heq];
      [|rewrite !hex_length, !slice_length by lia; done].
    injection Heq as Heq. rewrite !append_nil_l in Heq.
    apply append_inj_length in Heq as [H3 Heq];
      [|rewrite !hex_length, !slice_length by lia; done].
    injection Heq as Heq. rewrite !append_nil_l in Heq.
    apply append_inj_length in Heq as [H4 Heq];
      [|rewrite !hex_length, !slice_length by lia; done].
    injection Heq as H5. rewrite !append_nil_l in H5.
    apply hex_inj in H1, H2, H3, H4, H5;
      try ((by apply slice_bytes) || by apply Forall_drop).
    rewrite (slices_cover b'), (slices_cover b). by rewrite H1, H2, H3, H4, H5.
Qed.

Lemma GenerateUUID_format_witness :
  String.length (utils.GenerateUUID (uuid_bytes unreachable_geo)) = 36%nat
  ∧ utils.GenerateUUID (uuid_bytes unreachable_geo)
    = "01020304-0506-0708-090a-0b0c0d0e0f10".
Proof.
  destruct (GenerateUUID_format (uuid_bytes unreachable_geo)) as (_ & Hl & _).
  - reflexivity.
  - unfold is_byte. repeat (apply Forall_cons; split; [simpl; lia|]). constructor.
  - split; [exact Hl | reflexivity].
Defined.

End uuid_facts.

(** ** More on the retention sweep *)

(** The sweep, key by key. *)
Lemma CleanupOldEntries_lookup (t : Tracker) (now : Time) (maxAge : Duration)
    (id : string) :
  let t' := CleanupOldEntries now maxAge t in
  let cutoff := now + time.Neg maxAge in
  let old := match trackingData t !! id with
             | Some email => SentAt email <? cutoff
             | None => false
             end in
  trackingData t' !! id = (if old then None else trackingData t !! id)
  ∧ trackingEvents t' !! id
    = (if old then None else recent_events cutoff <$> trackingEvents t !! id).
Proof.
  cbv zeta. unfold CleanupOldEntries, time.Add. cbn [trackingData trackingEvents].
  pose proof (evict_loop_lookup (now + time.Neg maxAge) t id) as Hev. cbv zeta in Hev.
  rewrite trim_loop_lookup. unfold time.Before in Hev.
  destruct (trackingData t !! id) as [email|].
  - destruct (SentAt email <? now + time.Neg maxAge); destruct Hev as [-> ->]; done.
  - by destruct Hev as [-> ->].
Qed.

(** The same for a horizon whose opposite does not wrap. *)
Lemma CleanupOldEntries_lookup_opp (t : Tracker) (now : Time) (maxAge : Duration)
    (id : string) :
  time.minDuration < maxAge ≤ time.maxDuration →
  let t' := CleanupOldEntries now maxAge t in
  let cutoff := now - maxAge in
  let old := match trackingData t !! id with
             | Some email => SentAt email <? cutoff
             | None => false
             end in
  trackingData t' !! id = (if old then None else trackingData t !! id)
  ∧ trackingEvents t' !! id
    = (if old then None else recent_events cutoff <$> trackingEvents t !! id).
Proof.
  intros Hrange. pose proof (CleanupOldEntries_lookup t now maxAge id) as Hl.
  cbv zeta in *. rewrite (Neg_opp maxAge Hrange) in Hl.
  by replace (now + - maxAge) with (now - maxAge) in Hl by lia.
Qed.

Lemma tracker_eq (t1 t2 : Tracker) :
  (∀ id, trackingData t1 !! id = trackingData t2 !! id) →
  (∀ id, trackingEvents t1 !! id = trackingEvents t2 !! id) →
  t1 = t2.
Proof.
  destruct t1 as [d1 e1], t2 as [d2 e2]. simpl. intros Hd He.
  f_equal; by apply map_eq.
Qed.

Lemma recent_events_twice (c1 c2 : Time) (events : list TrackingEvent) :
  c1 ≤ c2 → recent_events c2 (recent_events c1 events) = recent_events c2 events.
Proof.
  intros Hc. induction events as [|e es IH]; [done|]. simpl. unfold time.After.
  destruct (Z.ltb_spec c1 (OpenedAt e)), (Z.ltb_spec c2 (OpenedAt e)); simpl;
    unfold time.After; try rewrite IH; try done; try lia.
  - destruct (Z.ltb_spec c2 (OpenedAt e)); [done|lia].
  - destruct (Z.ltb_spec c2 (OpenedAt e)); [lia|done].
Qed.

Lemma recent_events_sublist (cutoff : Time) (events : list TrackingEvent) :
  recent_events cutoff events `sublist_of` events.
Proof.
  induction events as [|e es IH]; simpl; [done|].
  destruct (time.After (OpenedAt e) cutoff); by constructor.
Qed.

Lemma recent_events_elem (cutoff : Time) (events : list TrackingEvent)
    (e : TrackingEvent) :
  e ∈ recent_events cutoff events ↔ e ∈ events ∧ cutoff < OpenedAt e.
Proof. rewrite recent_events_filter, list_elem_of_filter. tauto. Qed.

(** X6. What a sweep keeps, exactly, for a horizon whose opposite is
    a [Duration] (every horizon but [minDuration], where the minus of
    the code wraps).  A message stays when it was created at the cutoff
    [now - maxAge] or later; an event stays when it was opened strictly
    after the cutoff and the message of its identifier, if there is
    one, stays.  The sweep adds nothing, and what stays of a history
    stays in its order. *)
Theorem CleanupOldEntries_keeps (t : Tracker) (now : Time) (maxAge : Duration)
    (id : string) :
  time.minDuration < maxAge ≤ time.maxDuration →
  let t' := CleanupOldEntries now maxAge t in
  let cutoff := now - maxAge in
  (∀ email, trackingData t' !! id = Some email
            ↔ trackingData t !! id = Some email ∧ cutoff ≤ SentAt email)
  ∧ (∀ event, event ∈ GetAllTrackingEvents t' id
              ↔ event ∈ GetAllTrackingEvents t id ∧ cutoff < OpenedAt event
                ∧ ∀ email, trackingData t !! id = Some email → cutoff ≤ SentAt email)
  ∧ GetAllTrackingEvents t' id `sublist_of` GetAllTrackingEvents t id.
Proof.
  intros Hrange. cbv zeta.
  destruct (CleanupOldEntries_lookup_opp t now maxAge id Hrange) as [Hd He].
  cbv zeta in Hd, He.
  unfold GetAllTrackingEvents. rewrite He. clear He.
  split_and!.
  - intros email. rewrite Hd.
    destruct (trackingData t !! id) as [email0|]; [|split; [done|by intros [? _]]].
    destruct (Z.ltb_spec (SentAt email0) (now - maxAge)).
    + split; [done|]. intros [[= ->] ?]. lia.
    + split; [intros [= ->]; split; [done|lia] | by intros [? _]].
  - intros event.
    destruct (trackingData t !! id) as [email0|].
    + destruct (Z.ltb_spec (SentAt email0) (now - maxAge)).
      * split; [by intros Hin%elem_of_nil|]. intros (_ & _ & Hm).
        specialize (Hm email0 eq_refl). lia.
      * destruct (trackingEvents t !! id) as [events|]; simpl.
        -- rewrite recent_events_elem. split; [|tauto].
           intros [? ?]. split_and!; [done..|]. by intros ? [= <-].
        -- split; [by intros Hin%elem_of_nil | by intros [Hin%elem_of_nil _]].
    + destruct (trackingEvents t !! id) as [events|]; simpl.
      * rewrite recent_events_elem. split; [|tauto].
        intros [? ?]. by split_and!.
      * split; [by intros Hin%elem_of_nil | by intros [Hin%elem_of_nil _]].
  - destruct (match trackingData t !! id with
              | Some email => SentAt email <? now - maxAge | None => false end).
    + apply sublist_nil_l.
    + destruct (trackingEvents t !! id) as [events|]; simpl; [|done].
      apply recent_events_sublist.
Qed.

Lemma CleanupOldEntries_keeps_witness :
  trackingData (CleanupOldEntries 100 5 three_keys) !! "live"
  = Some (mk_email "live" 95 false)
  ∧ mk_event "live" "live" 97
    ∈ GetAllTrackingEvents (CleanupOldEntries 100 5 three_keys) "live".
Proof.
  destruct (CleanupOldEntries_keeps three_keys 100 5 "live") as (Hm & He & _);
    [by vm_compute|].
  split.
  - apply Hm. split; [reflexivity | by vm_compute].
  - apply He. split_and!.
    + apply list_elem_of_further, list_elem_of_here.
    + by vm_compute.
    + intros email [= <-]. by vm_compute.
Defined.

(** Two sweeps of the same horizon, the second one not earlier. *)
Lemma sweep_twice (t : Tracker) (now1 now2 : Time) (maxAge : Duration) :
  now1 ≤ now2 →
  CleanupOldEntries now2 maxAge (CleanupOldEntries now1 maxAge t)
  = CleanupOldEntries now2 maxAge t.
Proof.
  intros Hle. apply tracker_eq; intros id.
  - destruct (CleanupOldEntries_lookup (CleanupOldEntries now1 maxAge t) now2 maxAge id)
      as [-> _].
    destruct (CleanupOldEntries_lookup t now2 maxAge id) as [-> _].
    destruct (CleanupOldEntries_lookup t now1 maxAge id) as [-> _].
    destruct (trackingData t !! id) as [email|]; [|done].
    destruct (Z.ltb_spec (SentAt email) (now1 + time.Neg maxAge)) as [H1|H1].
    + by rewrite (proj2 (Z.ltb_lt _ _)) by lia.
    + by destruct (SentAt email <? now2 + time.Neg maxAge).
  - destruct (CleanupOldEntries_lookup (CleanupOldEntries now1 maxAge t) now2 maxAge id)
      as [_ ->].
    destruct (CleanupOldEntries_lookup t now2 maxAge id) as [_ ->].
    destruct (CleanupOldEntries_lookup t now1 maxAge id) as [-> ->].
    assert (Htwice : recent_events (now2 + time.Neg maxAge)
                       <$> (recent_events (now1 + time.Neg maxAge) <$> trackingEvents t !! id)
                     = recent_events (now2 + time.Neg maxAge) <$> trackingEvents t !! id).
    { destruct (trackingEvents t !! id) as [events|]; [|done]. simpl.
      by rewrite recent_events_twice by lia. }
    destruct (trackingData t !! id) as [email|]; [|done].
    destruct (Z.ltb_spec (SentAt email) (now1 + time.Neg maxAge)) as [H1|H1].
    + by rewrite (proj2 (Z.ltb_lt _ _)) by lia.
    + by destruct (SentAt email <? now2 + time.Neg maxAge).
Qed.

(** X7. A sweep absorbs every earlier sweep of the same horizon: a
    sweep at [now1] followed by a sweep at a later [now2] leaves the
    registry that the sweep at [now2] alone leaves.  In particular a
    sweep repeated at the same instant changes nothing more. *)
Theorem CleanupOldEntries_absorbs (t : Tracker) (now1 now2 : Time) (maxAge : Duration) :
  now1 ≤ now2 →
  CleanupOldEntries now2 maxAge (CleanupOldEntries now1 maxAge t)
  = CleanupOldEntries now2 maxAge t
  ∧ CleanupOldEntries now2 maxAge (CleanupOldEntries now2 maxAge t)
    = CleanupOldEntries now2 maxAge t.
Proof.
  intros Hle. split.
  - by apply sweep_twice.
  - apply sweep_twice. lia.
Qed.

Lemma CleanupOldEntries_absorbs_witness :
  CleanupOldEntries 100 10 (CleanupOldEntries 50 10 three_keys)
  = CleanupOldEntries 100 10 three_keys.
Proof.
  destruct (CleanupOldEntries_absorbs three_keys 50 100 10) as [Ha _]; [lia|exact Ha].
Defined.



(** The stretch must be free of writes.  An open between two ticks is
    stored without an owner when the first tick has evicted its
    message, and the second tick keeps it; without the first tick the
    open belongs to the message, and the second tick removes it with
    the message. *)
Example sweeper_open_between_ticks :
  let opened t :=
    res_tracker (TrackEmailOpen (H := ipv4.lib)
                   (notification.SendNotification hanging_transport) t
                   http.NewResponseWriter proxied_request "abc123"
                   "http://localhost:8080" open_between_ticks) in
  length (GetAllTrackingEvents
            (sweeper [retention + 1100] (opened (sweeper [retention + 1000] opted_in)))
            "abc123") = 1%nat
  ∧ GetAllTrackingEvents (sweeper [retention + 1100] (opened opted_in)) "abc123" = [].
Proof. split; by vm_compute. Qed.

(** ** What holds of every registry the program reaches *)

Lemma history_ok_later (clock clock' : Time) (id : string) (events : list TrackingEvent) :
  clock ≤ clock' → history_ok clock id events → history_ok clock' id events.
Proof.
  intros Hle [Hall Hsorted]. split; [|done].
  eapply Forall_impl; [exact Hall|]. intros e [? ?]. split; [done|lia].
Qed.

Lemma history_ok_snoc (clock : Time) (id : string) (events : list TrackingEvent)
    (event : TrackingEvent) :
  history_ok clock id events → TrackingID event = id → clock ≤ OpenedAt event →
  history_ok (OpenedAt event) id (events ++ [event]).
Proof.
  intros [Hall Hsorted] Hid Hle. split.
  - apply Forall_app. split.
    + eapply Forall_impl; [exact Hall|]. intros e [? ?]. split; [done|lia].
    + repeat constructor; [done|lia].
  - clear Hid. induction Hsorted as [|x l Hs IH Hx]; simpl.
    + repeat constructor.
    + apply Forall_cons in Hall as [[_ Hxc] Hall]. constructor.
      * by apply IH.
      * apply Forall_app. split; [done|]. repeat constructor. lia.
Qed.

Lemma history_ok_recent (clock cutoff : Time) (id : string)
    (events : list TrackingEvent) :
  history_ok clock id events → history_ok clock id (recent_events cutoff events).
Proof.
  intros [Hall Hsorted]. split.
  - apply Forall_forall. intros e [He _]%recent_events_elem.
    by eapply Forall_forall in Hall.
  - clear Hall. induction Hsorted as [|x l Hs IH Hx]; simpl; [constructor|].
    destruct (time.After (OpenedAt x) cutoff); [|done].
    constructor; [done|].
    apply Forall_forall. intros e [He _]%recent_events_elem.
    by eapply Forall_forall in Hx.
Qed.

Lemma history_ok_nil (clock : Time) (id : string) : history_ok clock id [].
Proof. split; constructor. Qed.

Lemma timeline_invariant `{GoLib} (clock : Time) (t : Tracker) :
  timeline clock t → ∀ id, history_ok clock id (GetAllTrackingEvents t id).
Proof.
  induction 1 as [clock|clock t email trackingID _ IH
                 |clock t sender w r trackingID baseURL world _ IH Hle
                 |clock t now maxAge _ IH|clock clock' t _ IH Hle]; intros id.
  - apply history_ok_nil.
  - apply IH.
  - rewrite TrackEmailOpen_tracker, GetAllTrackingEvents_events_at.
    unfold events_at. rewrite append_event_lookup.
    destruct (new_event_fields r trackingID baseURL world (owner_of t trackingID))
      as (Hid & _ & Hat & _).
    case_decide as Hk.
    + subst id. cbn [default from_option]. rewrite <- Hat.
      apply (history_ok_snoc clock); [|done|by rewrite Hat].
      rewrite <- GetAllTrackingEvents_events_at. apply IH.
    + apply history_ok_later with clock; [done|].
      specialize (IH id). by rewrite GetAllTrackingEvents_events_at in IH.
  - specialize (IH id). unfold GetAllTrackingEvents in *.
    destruct (CleanupOldEntries_lookup t now maxAge id) as [_ ->].
    destruct (match trackingData t !! id with
              | Some email => SentAt email <? now + time.Neg maxAge | None => false end);
      [apply history_ok_nil|].
    destruct (trackingEvents t !! id) as [events|]; simpl; [|apply history_ok_nil].
    by apply history_ok_recent.
  - apply history_ok_later with clock; [done|apply IH].
Qed.

(** X9. In every registry the program reaches, an event is stored
    under the identifier it carries: no history holds an event of
    another identifier. *)
Theorem stored_under_own_identifier `{GoLib} (clock : Time) (t : Tracker)
    (trackingID : string) (event : TrackingEvent) :
  timeline clock t →
  event ∈ GetAllTrackingEvents t trackingID →
  TrackingID event = trackingID.
Proof.
  intros Ht Hin. destruct (timeline_invariant clock t Ht trackingID) as [Hall _].
  by eapply Forall_forall in Hall as [? _].
Qed.

(** X10. When the clock never goes back, every history of a reached
    registry is in the order of the openings, and what
    [GetTrackingStats] returns is the most recent open of the
    identifier: no event of its history was opened later. *)
Theorem latest_is_most_recent `{GoLib} (clock : Time) (t : Tracker)
    (trackingID : string) (latest : TrackingEvent) :
  timeline clock t →
  GetTrackingStats t trackingID = Some latest →
  StronglySorted (λ a b, OpenedAt a ≤ OpenedAt b) (GetAllTrackingEvents t trackingID)
  ∧ OpenedAt latest ≤ clock
  ∧ ∀ event, event ∈ GetAllTrackingEvents t trackingID →
             OpenedAt event ≤ OpenedAt latest.
Proof.
  intros Ht Hlatest.
  destruct (timeline_invariant clock t Ht trackingID) as [Hall Hsorted].
  rewrite GetTrackingStats_last in Hlatest.
  apply last_Some in Hlatest as [front Hfront].
  rewrite Hfront in Hall, Hsorted |- *. split_and!; [done| |].
  - apply Forall_app in Hall as [_ Hl]. by apply Forall_singleton in Hl as [_ ?].
  - intros event [Hin|Hin%list_elem_of_singleton]%elem_of_app; [|subst; lia].
    eapply StronglySorted_app_1_elem_of in Hsorted;
      [exact Hsorted | exact Hin | apply list_elem_of_here].
Qed.

Lemma opened_once_reached : timeline (H := ipv4.lib) 1000 opened_once.
Proof.
  apply (timeline_open (H := ipv4.lib) 0 opted_in
           (notification.SendNotification hanging_transport)
           http.NewResponseWriter proxied_request "abc123" "http://localhost:8080"
           unreachable_geo).
  - apply timeline_register, timeline_new.
  - by vm_compute.
Defined.

Lemma stored_under_own_identifier_witness : TrackingID opened_event = "abc123".
Proof.
  apply (stored_under_own_identifier (H := ipv4.lib) 1000 opened_once "abc123"
           opened_event opened_once_reached).
  vm_compute. apply list_elem_of_here.
Defined.

Lemma latest_is_most_recent_witness : OpenedAt opened_event ≤ 1000.
Proof.
  destruct (latest_is_most_recent (H := ipv4.lib) 1000 opened_once "abc123"
              opened_event opened_once_reached) as (_ & Hle & _);
    [by vm_compute | exact Hle].
Defined.

(** ** More on recording an open *)

Lemma GetAllTrackingEvents_append (t : Tracker) (trackingID : string)
    (event : TrackingEvent) :
  GetAllTrackingEvents (append_event t trackingID event) trackingID
  = GetAllTrackingEvents t trackingID ++ [event].
Proof.
  rewrite !GetAllTrackingEvents_events_at. unfold events_at at 1.
  rewrite append_event_lookup. by rewrite decide_True.
Qed.

(** X11. An open that arrives after the sweep evicted its message (a
    message created before [now0 - maxAge], for a horizon whose
    opposite is a [Duration]: every horizon but [minDuration]) is
    recorded without an owner, as the first event of a new history,
    and notifies nobody, whatever the evicted message had asked for;
    the message stays evicted and the response is written at once. *)
Theorem open_after_eviction `{GoLib} (sender : NotificationSender) (t : Tracker)
    (now0 : Time) (maxAge : Duration) (w : http.ResponseWriter) (r : http.Request)
    (trackingID baseURL : string) (world : OpenWorld) (email : Email) :
  time.minDuration < maxAge ≤ time.maxDuration →
  trackingData t !! trackingID = Some email →
  SentAt email < now0 - maxAge →
  let res := TrackEmailOpen sender (CleanupOldEntries now0 maxAge t) w r
               trackingID baseURL world in
  ∃ event,
    GetAllTrackingEvents (res_tracker res) trackingID = [event]
    ∧ EmailID event = ""
    ∧ res_notified res = None
    ∧ res_written_at res = now world
    ∧ trackingData (res_tracker res) !! trackingID = None.
Proof.
  intros Hrange Hm Hold. cbv zeta.
  destruct (CleanupOldEntries_lookup_opp t now0 maxAge trackingID Hrange) as [Hd He].
  cbv zeta in Hd, He. rewrite Hm in Hd, He.
  rewrite (proj2 (Z.ltb_lt _ _) Hold) in Hd, He.
  set (t' := CleanupOldEntries now0 maxAge t) in *.
  exists (new_event r trackingID baseURL world "").1.
  assert (Howner : owner_of t' trackingID = "") by (unfold owner_of; by rewrite Hd).
  rewrite TrackEmailOpen_tracker, Howner.
  split_and!.
  - rewrite GetAllTrackingEvents_events_at. unfold events_at.
    rewrite append_event_lookup, decide_True by done.
    unfold events_at. by rewrite He.
  - apply new_event_fields.
  - unfold TrackEmailOpen. rewrite Howner.
    destruct (new_event _ _ _ _ _) as [event geoErr].
    unfold notify_open. by rewrite Hd.
  - unfold TrackEmailOpen. rewrite Howner.
    destruct (new_event _ _ _ _ _) as [event geoErr].
    unfold notify_open. rewrite Hd. unfold time.Add. simpl. lia.
  - done.
Qed.

Lemma open_after_eviction_witness :
  ∃ event,
    GetAllTrackingEvents
      (res_tracker (TrackEmailOpen (H := ipv4.lib)
         (notification.SendNotification hanging_transport)
         (CleanupOldEntries 2000 100 opted_in) http.NewResponseWriter
         proxied_request "abc123" "http://localhost:8080" unreachable_geo))
      "abc123" = [event]
    ∧ EmailID event = "".
Proof.
  destruct (open_after_eviction (H := ipv4.lib)
              (notification.SendNotification hanging_transport) opted_in 2000 100
              http.NewResponseWriter proxied_request "abc123" "http://localhost:8080"
              unreachable_geo (mk_email "abc123" 900 true))
    as (event & Hall & Howner & _); [by vm_compute | by vm_compute | by vm_compute |].
  exists event. split; [exact Hall | exact Howner].
Defined.

(** X12. When the geography service answers with the status
    ["success"], [GetGeoLocation] returns its answer without an error,
    and the event stored carries the country, city, region and provider
    of the answer, next to the address that was looked up; nothing is
    printed about the lookup. *)
Theorem TrackEmailOpen_geo_success `{GoLib} (sender : NotificationSender) (t : Tracker)
    (w : http.ResponseWriter) (r : http.Request) (trackingID baseURL : string)
    (world : OpenWorld) (data : utils.IPAPIData) :
  geo_reply world = utils.Decoded data →
  utils.api_Status data = "success" →
  let res := TrackEmailOpen sender t w r trackingID baseURL world in
  ∃ event,
    GetTrackingStats (res_tracker res) trackingID = Some event
    ∧ Country event = utils.api_Country data ∧ City event = utils.api_City data
    ∧ Region event = utils.api_Region data ∧ ISP event = utils.api_ISP data
    ∧ IPAddress event = utils.GetClientIP r
    ∧ (utils.GetGeoLocation (utils.GetClientIP r) (geo_reply world)).2 = None
    ∧ geo_IP (utils.GetGeoLocation (utils.GetClientIP r) (geo_reply world)).1
      = utils.GetClientIP r
    ∧ ∀ err, LogGeoError err ∉ res_log res.
Proof.
  intros Hreply Hstatus. cbv zeta.
  assert (Hgeo : utils.GetGeoLocation (utils.GetClientIP r) (geo_reply world)
    = ({| geo_IP := utils.GetClientIP r; geo_Country := utils.api_Country data;
          geo_City := utils.api_City data; geo_Region := utils.api_Region data;
          geo_ISP := utils.api_ISP data; geo_Lat := utils.api_Lat data;
          geo_Lon := utils.api_Lon data |}, None)).
  { unfold utils.GetGeoLocation, utils.getGeoFromIPAPI.
    rewrite Hreply, Hstatus. done. }
  exists (new_event r trackingID baseURL world (owner_of t trackingID)).1.
  rewrite TrackEmailOpen_tracker, GetTrackingStats_last, GetAllTrackingEvents_append.
  rewrite last_snoc.
  unfold TrackEmailOpen, new_event. rewrite Hgeo.
  destruct (notify_open _ _ _ _) as [sent elapsed]. cbn.
  split_and!; try done.
  intros err Hin. apply elem_of_cons in Hin as [Hin|Hin]; [done|].
  destruct sent as [[e|]|]; simpl in Hin.
  - by apply list_elem_of_singleton in Hin.
  - by apply elem_of_nil in Hin.
  - by apply elem_of_nil in Hin.
Qed.

Lemma TrackEmailOpen_geo_success_witness :
  ∃ event,
    GetTrackingStats
      (res_tracker (TrackEmailOpen (H := ipv4.lib)
         (notification.SendNotification hanging_transport) NewTracker
         http.NewResponseWriter proxied_request "abc123" "http://localhost:8080"
         answered_geo)) "abc123" = Some event
    ∧ Country event = "United States" ∧ City event = "Mountain View".
Proof.
  destruct (TrackEmailOpen_geo_success (H := ipv4.lib)
              (notification.SendNotification hanging_transport) NewTracker
              http.NewResponseWriter proxied_request "abc123" "http://localhost:8080"
              answered_geo geo_answer)
    as (event & Hs & Hc & Hci & _); [reflexivity | reflexivity |].
  exists event. split_and!; [exact Hs | exact Hc | exact Hci].
Defined.

(** ** The classification of the user agent *)

Lemma HasPrefix_app (prefix post : string) :
  strings.HasPrefix (prefix +:+ post) prefix = true.
Proof.
  induction prefix as [|a prefix IH]; simpl; [by destruct post|].
  by rewrite Ascii.eqb_refl, IH.
Qed.

Lemma Contains_unfold (s substr : string) :
  strings.Contains s substr
  = strings.HasPrefix s substr
    || match s with
       | EmptyString => false
       | String _ rest => strings.Contains rest substr
       end.
Proof. by destruct s. Qed.

(** A string holds the strings that occur in it. *)
Lemma Contains_infix (pre substr post : string) :
  strings.Contains (pre +:+ substr +:+ post) substr = true.
Proof.
  induction pre as [|a pre IH].
  - change ("" +:+ substr +:+ post) with (substr +:+ post).
    by rewrite Contains_unfold, HasPrefix_app.
  - change (String a pre +:+ substr +:+ post)
      with (String a (pre +:+ substr +:+ post)).
    rewrite Contains_unfold, IH. apply orb_true_r.
Qed.

(** X13. The order of the tests decides the classification.  A user
    agent naming Chrome is Chrome whatever else it names, so Safari,
    Edge and Opera are reported only without ["chrome"], and Edge and
    Opera only without ["firefox"] and ["safari"] as well; Linux is
    reported before Android and macOS before iOS, so Android is
    reported only without ["linux"] and iOS only without ["mac os"];
    the device is one of Mobile, Tablet and Desktop, Mobile before
    Tablet. *)
Theorem ParseUserAgent_precedence `{GoLib} (userAgent : string) :
  let info := utils.ParseUserAgent userAgent in
  let has := strings.Contains (ToLower userAgent) in
  (has "chrome" = true → utils.dev_Browser info = "Chrome")
  ∧ (utils.dev_Browser info = "Safari" → has "chrome" = false ∧ has "firefox" = false)
  ∧ (utils.dev_Browser info = "Edge" ∨ utils.dev_Browser info = "Opera" →
       has "chrome" = false ∧ has "firefox" = false ∧ has "safari" = false)
  ∧ (utils.dev_OS info = "Android" →
       has "linux" = false ∧ has "windows" = false ∧ has "mac os" = false)
  ∧ (utils.dev_OS info = "iOS" →
       has "mac os" = false ∧ has "linux" = false ∧ has "windows" = false)
  ∧ (has "mobile" = true → utils.dev_DeviceType info = "Mobile")
  ∧ utils.dev_DeviceType info ∈ ["Mobile"; "Tablet"; "Desktop"].
Proof.
  cbv zeta. unfold utils.ParseUserAgent.
  cbn [utils.dev_Browser utils.dev_OS utils.dev_DeviceType].
  unfold utils.browser, utils.operating_system, utils.device_type.
  set (ua := ToLower userAgent).
  split_and!.
  - by intros ->.
  - destruct (strings.Contains ua "chrome"); [done|].
    destruct (strings.Contains ua "firefox"); [done|]. done.
  - destruct (strings.Contains ua "chrome"); [by intros [|]|].
    destruct (strings.Contains ua "firefox"); [by intros [|]|].
    destruct (strings.Contains ua "safari"); [by intros [|]|]. done.
  - destruct (strings.Contains ua "windows"); [done|].
    destruct (strings.Contains ua "mac os"); [done|].
    destruct (strings.Contains ua "linux"); [done|]. done.
  - destruct (strings.Contains ua "windows"); [done|].
    destruct (strings.Contains ua "mac os"); [done|].
    destruct (strings.Contains ua "linux"); [done|]. done.
  - by intros ->.
  - destruct (strings.Contains ua "mobile"); [set_solver|].
    destruct (strings.Contains ua "tablet"); set_solver.
Qed.

Lemma ParseUserAgent_precedence_witness :
  utils.dev_Browser (utils.ParseUserAgent (H := ipv4.lib) windows_edge) = "Chrome"
  ∧ utils.dev_DeviceType (utils.ParseUserAgent (H := ipv4.lib) android_chrome) = "Mobile".
Proof.
  destruct (ParseUserAgent_precedence (H := ipv4.lib) windows_edge) as (Hb & _).
  destruct (ParseUserAgent_precedence (H := ipv4.lib) android_chrome)
    as (_ & _ & _ & _ & _ & Hm & _).
  split; [apply Hb | apply Hm]; by vm_compute.
Defined.

(** What browsers send: an iPhone names Mac OS X, an Android phone
    names Linux, and Edge names Chrome and Safari. *)
Example ParseUserAgent_iphone :
  utils.ParseUserAgent (H := ipv4.lib) iphone_safari
  = {| utils.dev_DeviceType := "Mobile"; utils.dev_Browser := "Safari";
       utils.dev_OS := "macOS" |}.
Proof. by vm_compute. Qed.

Example ParseUserAgent_android :
  utils.ParseUserAgent (H := ipv4.lib) android_chrome
  = {| utils.dev_DeviceType := "Mobile"; utils.dev_Browser := "Chrome";
       utils.dev_OS := "Linux" |}.
Proof. by vm_compute. Qed.

Example ParseUserAgent_edge :
  utils.ParseUserAgent (H := ipv4.lib) windows_edge
  = {| utils.dev_DeviceType := "Desktop"; utils.dev_Browser := "Chrome";
       utils.dev_OS := "Windows" |}.
Proof. by vm_compute. Qed.

(** ** The dispatch of a notification *)

(** X14. [SendNotification] returns [nil] exactly when the template
    parses and executes and the transport answers without an error
    before the deadline (or on it, when the [select] takes the answer).
    Against a transport that hangs or answers after the deadline it
    returns the cancellation error when the deadline falls, not later;
    when the template fails it returns at once, with an error. *)
Theorem SendNotification_outcome (sw : notification.SenderWorld) (deadline : Duration)
    (to : list string) (subject : string) (data : gmap string notification.Value) :
  let res := notification.SendNotification sw deadline to subject data in
  (res.1 = None
   ↔ notification.template_err sw = None ∧ notification.execute_err sw = None
     ∧ ∃ after, notification.transport sw = notification.Replies after None
                ∧ (after < deadline
                   ∨ (after = deadline ∧ notification.select_Done_on_tie sw = false)))
  ∧ (notification.template_err sw = None → notification.execute_err sw = None →
     (notification.transport sw = notification.Hangs
      ∨ ∃ after err, notification.transport sw = notification.Replies after err
                     ∧ deadline < after) →
     res = (Some notification.cancelled, deadline))
  ∧ (notification.template_err sw ≠ None ∨ notification.execute_err sw ≠ None →
     res.1 ≠ None ∧ res.2 = 0).
Proof.
  cbv zeta. unfold notification.SendNotification.
  destruct (notification.template_err sw) as [te|].
  { split_and!; [|done|done]. split; [done|]. by intros [? _]. }
  destruct (notification.execute_err sw) as [ee|].
  { split_and!; [|done|done]. split; [done|]. by intros (_ & ? & _). }
  destruct (notification.transport sw) as [after err|].
  - split_and!.
    + destruct (Z.ltb_spec after deadline) as [Hlt|Hge].
      * destruct err as [e|]; simpl.
        -- split; [done|]. by intros (_ & _ & a & [= _ ?] & _).
        -- split; [|done]. intros _. split_and!; [done..|]. exists after. split; [done|lia].
      * destruct (Z.ltb_spec deadline after) as [Hlt'|Hge'].
        -- split; [done|]. intros (_ & _ & a & [= <-] & [?|[? _]]); lia.
        -- destruct (notification.select_Done_on_tie sw).
           ++ split; [done|]. intros (_ & _ & a & [= <-] & [?|[_ ?]]); [lia|done].
           ++ destruct err as [e|]; simpl.
              ** split; [done|]. by intros (_ & _ & a & [= _ ?] & _).
              ** split; [|done]. intros _. split_and!; [done..|]. exists after.
                 split; [done|]. right. split; [lia|done].
    + intros _ _ [?|(a & e & [= <- <-] & Hlt)]; [done|].
      destruct (Z.ltb_spec after deadline); [lia|].
      destruct (Z.ltb_spec deadline after); [done|lia].
    + by intros [?|?].
  - split_and!.
    + split; [done|]. by intros (_ & _ & a & ? & _).
    + done.
    + by intros [?|?].
Qed.

Lemma SendNotification_outcome_witness :
  notification.SendNotification hanging_transport (1 * time.Second)
    ["me@example.com"] "subject" ∅
  = (Some notification.cancelled, 1 * time.Second).
Proof.
  destruct (SendNotification_outcome hanging_transport (1 * time.Second)
              ["me@example.com"] "subject" ∅) as (_ & Hh & _).
  apply Hh; [reflexivity | reflexivity | by left].
Defined.


Lemma RegisterEmail_lookup (t : Tracker) (email : Email) (trackingID id : string) :
  trackingData (RegisterEmail t email trackingID) !! id
  = (if decide (id = trackingID) then Some email else trackingData t !! id).
Proof.
  unfold RegisterEmail; simpl. case_decide as Hid.
  - subst. by rewrite lookup_insert_eq.
  - by rewrite lookup_insert_ne.
Qed.

(** ** Sending a tracked message *)

Module send_facts.

Import service.

(** The message [SendEmail] builds does not depend on the transport. *)
Lemma SendEmail_message (cfg : config.Config) (transport : notification.Transport)
    (tie : bool) (ctx : context.Context) (to : list string) (subject body : string) :
  (mail.SendEmail cfg transport tie ctx to subject body).1.1
  = {| mail.msg_From := config.SMTP_From cfg; mail.msg_To := to;
       mail.msg_Subject := subject; mail.msg_HTML := body |}.
Proof.
  unfold mail.SendEmail.
  destruct (context.WithTimeout ctx mail.send_timeout) as [remaining ctxErr].
  destruct transport as [after err|]; [|done].
  destruct (after <? remaining); [done|].
  destruct (remaining <? after); [done|]. by destruct tie.
Qed.

Lemma WithTimeout_bound (ctx : context.Context) (timeout : Duration) :
  (context.WithTimeout ctx timeout).1 ≤ timeout.
Proof.
  unfold context.WithTimeout. destruct ctx as [[remaining err]|]; simpl; [|lia].
  destruct (Z.ltb_spec remaining timeout); simpl; lia.
Qed.

(** The time [SendEmail] takes under a context that is done in ten
    seconds at the latest. *)
Lemma SendEmail_elapsed (cfg : config.Config) (transport : notification.Transport)
    (tie : bool) (ctx : context.Context) (to : list string) (subject body : string) :
  transport_causal {| notification.template_err := None;
                      notification.execute_err := None;
                      notification.transport := transport;
                      notification.select_Done_on_tie := tie |} →
  match ctx with Some (remaining, _) => 0 ≤ remaining | None => True end →
  0 ≤ (mail.SendEmail cfg transport tie ctx to subject body).2 ≤ 10 * time.Second.
Proof.
  unfold transport_causal. cbn [notification.transport]. intros Hc Hctx.
  unfold mail.SendEmail.
  pose proof (WithTimeout_bound ctx mail.send_timeout) as Hb.
  assert (Hpos : 0 ≤ (context.WithTimeout ctx mail.send_timeout).1).
  { unfold context.WithTimeout. destruct ctx as [[remaining err]|]; simpl.
    - destruct (Z.ltb_spec remaining mail.send_timeout); simpl; [lia|].
      by vm_compute.
    - by vm_compute. }
  destruct (context.WithTimeout ctx mail.send_timeout) as [remaining ctxErr].
  simpl in Hb, Hpos.
  change mail.send_timeout with 10000000000 in Hb.
  change (10 * time.Second) with 10000000000.
  destruct transport as [after err|]; simpl; [|lia].
  destruct (Z.ltb_spec after remaining); simpl; [lia|].
  destruct (Z.ltb_spec remaining after); simpl; [lia|].
  destruct tie; simpl; lia.
Qed.

(** The two ways [SendTrackedEmail] ends. *)
Lemma SendTrackedEmail_cases (cfg : config.Config) (t : Tracker) (world : SendWorld)
    (ctx : context.Context) (req : EmailRequest) (baseURL : string) :
  let res := SendTrackedEmail cfg t world ctx req baseURL in
  (∃ err, sr_err res = Some err ∧ sr_tracker res = t ∧ sr_trackingID res = "")
  ∨ (∃ b tmpl pixelHTML,
       rand_Read (sw_rand world) 32 = inl b
       ∧ sw_template world = Some tmpl
       ∧ tmpl {| pd_BaseURL := baseURL; pd_TrackingID := base64.EncodeToString b;
                 pd_Timestamp := Unix (sw_now world) |} = inl pixelHTML
       ∧ sr_trackingID res = base64.EncodeToString b
       ∧ sr_err res = None
       ∧ sr_sent res
         = Some {| mail.msg_From := config.SMTP_From cfg; mail.msg_To := req_To req;
                   mail.msg_Subject := req_Subject req;
                   mail.msg_HTML := req_Body req +:+ pixelHTML |}
       ∧ sr_tracker res
         = RegisterEmail t
             {| email_ID := base64.EncodeToString b;
                email_From := config.SMTP_From cfg;
                email_To := gostrings.Join (req_To req) ",";
                email_Subject := req_Subject req;
                email_Body := req_Body req;
                email_TrackingID := base64.EncodeToString b;
                SentAt := sr_returned_at res;
                NotifyOnOpen := req_NotifyOnOpen req;
                NotifyEmail := req_NotifyEmail req |}
             (base64.EncodeToString b)).
Proof.
  cbv zeta. unfold SendTrackedEmail, GenerateTrackingID, EmbedTrackingPixel.
  destruct (rand_Read (sw_rand world) 32) as [b|err]; [|left; by eexists].
  destruct (sw_template world) as [tmpl|]; [|left; by eexists].
  destruct (tmpl _) as [pixelHTML|err] eqn:Htmpl; [|left; by eexists].
  pose proof (SendEmail_message cfg (sw_transport world) (sw_select_Done_on_tie world)
                (Some (context.WithTimeout ctx (10 * time.Second)))
                (req_To req) (req_Subject req) (req_Body req +:+ pixelHTML)) as Hmsg.
  destruct (mail.SendEmail _ _ _ _ _ _ _) as [[message sendErr] elapsed].
  simpl in Hmsg. subst message.
  destruct sendErr as [err|]; [left; by eexists|].
  right. exists b, tmpl, pixelHTML. by split_and!.
Qed.

(** X15. When [SendTrackedEmail] returns an error it returns no
    identifier and leaves the registry as it was: nothing is registered
    for a message that was not sent.  A transport that hangs is such an
    error. *)
Theorem SendTrackedEmail_failure (cfg : config.Config) (t : Tracker) (world : SendWorld)
    (ctx : context.Context) (req : EmailRequest) (baseURL : string) :
  let res := SendTrackedEmail cfg t world ctx req baseURL in
  (sr_err res ≠ None → sr_tracker res = t ∧ sr_trackingID res = "")
  ∧ (sw_transport world = notification.Hangs → sr_err res ≠ None).
Proof.
  cbv zeta. split.
  - destruct (SendTrackedEmail_cases cfg t world ctx req baseURL)
      as [(err & _ & Ht & Hid)|(b & tmpl & pixelHTML & _ & _ & _ & _ & Herr & _)];
      [done|]. by rewrite Herr.
  - intros Hhangs. unfold SendTrackedEmail, GenerateTrackingID, EmbedTrackingPixel.
    destruct (rand_Read (sw_rand world) 32) as [b|err]; [|done].
    destruct (sw_template world) as [tmpl|]; [|done].
    destruct (tmpl _) as [pixelHTML|err]; [|done].
    unfold mail.SendEmail. rewrite Hhangs.
    by destruct (context.WithTimeout _ mail.send_timeout) as [remaining ctxErr].
Qed.

Lemma SendTrackedEmail_failure_witness :
  sr_tracker (SendTrackedEmail sender_config opted_in hanging_world context.Background
                send_request "http://localhost:8080") = opted_in.
Proof.
  destruct (SendTrackedEmail_failure sender_config opted_in hanging_world
              context.Background send_request "http://localhost:8080") as [Hf Hh].
  apply Hf, Hh. reflexivity.
Defined.

(** X16. When [SendTrackedEmail] succeeds, the identifier it returns
    has 44 characters and is registered with the message: the message
    carries the identifier as its [ID], the recipients joined by
    commas, the body as the caller gave it, the instant of the return
    and the preference of the caller; the body handed to the transport
    is that body followed by the pixel, which is what the template of
    the tracker writes for the base URL, the identifier returned and
    the seconds of the clock.  No other message and no history
    changes. *)
Theorem SendTrackedEmail_success (cfg : config.Config) (t : Tracker) (world : SendWorld)
    (ctx : context.Context) (req : EmailRequest) (baseURL : string) (id : string) :
  let res := SendTrackedEmail cfg t world ctx req baseURL in
  sr_err res = None →
  String.length (sr_trackingID res) = 44%nat
  ∧ trackingData (sr_tracker res) !! id
    = (if decide (id = sr_trackingID res)
       then Some {| email_ID := sr_trackingID res;
                    email_From := config.SMTP_From cfg;
                    email_To := gostrings.Join (req_To req) ",";
                    email_Subject := req_Subject req;
                    email_Body := req_Body req;
                    email_TrackingID := sr_trackingID res;
                    SentAt := sr_returned_at res;
                    NotifyOnOpen := req_NotifyOnOpen req;
                    NotifyEmail := req_NotifyEmail req |}
       else trackingData t !! id)
  ∧ trackingEvents (sr_tracker res) = trackingEvents t
  ∧ ∃ tmpl pixelHTML,
      sw_template world = Some tmpl
      ∧ tmpl {| pd_BaseURL := baseURL; pd_TrackingID := sr_trackingID res;
                pd_Timestamp := Unix (sw_now world) |} = inl pixelHTML
      ∧ sr_sent res
        = Some {| mail.msg_From := config.SMTP_From cfg; mail.msg_To := req_To req;
                  mail.msg_Subject := req_Subject req;
                  mail.msg_HTML := req_Body req +:+ pixelHTML |}.
Proof.
  cbv zeta. intros Hok.
  destruct (SendTrackedEmail_cases cfg t world ctx req baseURL)
    as [(err & Herr & _)
       |(b & tmpl & pixelHTML & Hread & Htmpl & Hpixel & Hid & _ & Hsent & Ht)];
    [congruence|].
  destruct (rand_Read_fills _ _ _ Hread) as [Hlen Hbytes].
  destruct (base64_facts.EncodeToString_shape 10 b Hbytes Hlen) as [Hl _].
  rewrite Ht, Hid. split_and!.
  - done.
  - by rewrite RegisterEmail_lookup.
  - done.
  - by exists tmpl, pixelHTML.
Qed.

Lemma SendTrackedEmail_registered (cfg : config.Config) (t : Tracker)
    (world : SendWorld) (ctx : context.Context) (req : EmailRequest)
    (baseURL : string) :
  let res := SendTrackedEmail cfg t world ctx req baseURL in
  sr_err res = None →
  ∃ email, trackingData (sr_tracker res) !! sr_trackingID res = Some email
           ∧ email_ID email = sr_trackingID res
           ∧ NotifyOnOpen email = req_NotifyOnOpen req.
Proof.
  cbv zeta. intros Hok.
  destruct (SendTrackedEmail_cases cfg t world ctx req baseURL)
    as [(err & Herr & _)|(b & tmpl & pixelHTML & _ & _ & _ & Hid & _ & _ & Ht)];
    [congruence|].
  rewrite Ht, Hid, RegisterEmail_lookup, decide_True by done.
  by eexists.
Qed.

Lemma SendTrackedEmail_success_witness :
  String.length
    (sr_trackingID (SendTrackedEmail sender_config NewTracker answering_world
                      context.Background send_request "http://localhost:8080"))
  = 44%nat
  ∧ mail.msg_HTML
      <$> sr_sent (SendTrackedEmail sender_config NewTracker answering_world
                     context.Background send_request "http://localhost:8080")
    = Some ("<p>hi</p><img src='http://localhost:8080/track/"
            +:+ "AAECAwABAgMAAQIDAAECAwABAgMAAQIDAAECAwABAgM='>").
Proof.
  destruct (SendTrackedEmail_success sender_config NewTracker answering_world
              context.Background send_request "http://localhost:8080" "abc123")
    as (Hl & _ & _ & tmpl & pixelHTML & Htmpl & Hpixel & Hsent); [reflexivity|].
  split; [exact Hl|].
  injection Htmpl as <-. vm_compute in Hpixel. injection Hpixel as <-.
  rewrite Hsent. reflexivity.
Defined.

(** X17. Sending and opening compose: an open of the identifier that
    [SendTrackedEmail] returned is recorded with that identifier as its
    owning message, and the sender of notifications is called exactly
    when the request asked to be notified. *)
Theorem open_after_send `{GoLib} (cfg : config.Config) (t : Tracker) (world : SendWorld)
    (ctx : context.Context) (req : EmailRequest) (baseURL : string)
    (sender : NotificationSender) (w : http.ResponseWriter) (r : http.Request)
    (openWorld : OpenWorld) :
  let sent := SendTrackedEmail cfg t world ctx req baseURL in
  let res := TrackEmailOpen sender (sr_tracker sent) w r (sr_trackingID sent) baseURL
               openWorld in
  sr_err sent = None →
  ∃ event,
    GetTrackingStats (res_tracker res) (sr_trackingID sent) = Some event
    ∧ EmailID event = sr_trackingID sent
    ∧ TrackingID event = sr_trackingID sent
    ∧ (is_Some (res_notified res) ↔ req_NotifyOnOpen req = true).
Proof.
  cbv zeta. intros Hok.
  pose proof (SendTrackedEmail_registered cfg t world ctx req baseURL Hok) as Hreg.
  set (sent := SendTrackedEmail cfg t world ctx req baseURL) in *.
  exists (new_event r (sr_trackingID sent) baseURL openWorld
            (owner_of (sr_tracker sent) (sr_trackingID sent))).1.
  rewrite TrackEmailOpen_tracker, GetTrackingStats_last, GetAllTrackingEvents_append,
    last_snoc.
  destruct (new_event_fields r (sr_trackingID sent) baseURL openWorld
              (owner_of (sr_tracker sent) (sr_trackingID sent))) as (Hid & Howner & _).
  destruct Hreg as (email & Hreg & Hmid & Hnotify).
  split_and!; [done| |done|].
  - rewrite Howner. unfold owner_of. by rewrite Hreg.
  - unfold TrackEmailOpen.
    destruct (new_event _ _ _ _ _) as [event geoErr].
    unfold notify_open. rewrite Hreg, Hnotify.
    destruct (req_NotifyOnOpen req).
    + destruct (sender _ _ _ _) as [err elapsed]. simpl. split; [done|by eexists].
    + simpl. split; [by intros [? ?]|done].
Qed.

Lemma open_after_send_witness :
  ∃ event,
    GetTrackingStats
      (res_tracker
         (TrackEmailOpen (H := ipv4.lib) (notification.SendNotification hanging_transport)
            (sr_tracker (SendTrackedEmail sender_config NewTracker answering_world
                           context.Background send_request "http://localhost:8080"))
            http.NewResponseWriter proxied_request
            (sr_trackingID (SendTrackedEmail sender_config NewTracker answering_world
                              context.Background send_request "http://localhost:8080"))
            "http://localhost:8080" unreachable_geo))
      (sr_trackingID (SendTrackedEmail sender_config NewTracker answering_world
                        context.Background send_request "http://localhost:8080"))
    = Some event
    ∧ EmailID event = "AAECAwABAgMAAQIDAAECAwABAgMAAQIDAAECAwABAgM=".
Proof.
  destruct (open_after_send (H := ipv4.lib) sender_config NewTracker answering_world
              context.Background send_request "http://localhost:8080"
              (notification.SendNotification hanging_transport)
              http.NewResponseWriter proxied_request unreachable_geo)
    as (event & Hs & Ho & _); [reflexivity|].
  exists event. split; [exact Hs | exact Ho].
Defined.

(** X18. [SendTrackedEmail] returns within ten seconds of its start,
    whatever the transport does and however much time the context of
    the caller leaves. *)
Theorem SendTrackedEmail_bounded (cfg : config.Config) (t : Tracker) (world : SendWorld)
    (ctx : context.Context) (req : EmailRequest) (baseURL : string) :
  match sw_transport world with
  | notification.Replies after _ => 0 ≤ after
  | notification.Hangs => True
  end →
  match ctx with Some (remaining, _) => 0 ≤ remaining | None => True end →
  let res := SendTrackedEmail cfg t world ctx req baseURL in
  sw_now world ≤ sr_returned_at res ≤ sw_now world + 10 * time.Second.
Proof.
  intros Hc Hctx. cbv zeta.
  change (10 * time.Second) with 10000000000.
  unfold SendTrackedEmail, GenerateTrackingID, EmbedTrackingPixel.
  destruct (rand_Read (sw_rand world) 32) as [b|err]; [|simpl; lia].
  destruct (sw_template world) as [tmpl|]; [|simpl; lia].
  destruct (tmpl _) as [pixelHTML|err]; [|simpl; lia].
  pose proof (SendEmail_elapsed cfg (sw_transport world) (sw_select_Done_on_tie world)
                (Some (context.WithTimeout ctx (10 * time.Second)))
                (req_To req) (req_Subject req) (req_Body req +:+ pixelHTML)) as He.
  change (10 * time.Second) with 10000000000 in He.
  destruct (mail.SendEmail _ _ _ _ _ _ _) as [[message sendErr] elapsed].
  simpl in He.
  assert (0 ≤ elapsed ≤ 10000000000) as Hel.
  { apply He; [exact Hc|].
    pose proof (WithTimeout_bound ctx 10000000000) as Hb.
    unfold context.WithTimeout in *. destruct ctx as [[remaining e]|]; [|done].
    destruct (Z.ltb_spec remaining 10000000000); [done|done]. }
  unfold time.Add. destruct sendErr; simpl; lia.
Qed.

Lemma SendTrackedEmail_bounded_witness :
  sr_returned_at (SendTrackedEmail sender_config NewTracker hanging_world
                    context.Background send_request "http://localhost:8080")
  ≤ 500 + 10 * time.Second.
Proof.
  destruct (SendTrackedEmail_bounded sender_config NewTracker hanging_world
              context.Background send_request "http://localhost:8080") as [_ Hle];
    [exact I | exact I | exact Hle].
Defined.

End send_facts.

(** ** The base URL of the beacon *)

(** X19. The base URL that [main] puts into the beacon depends on
    four variables of the environment and on nothing of the request.
    A [BASE_URL] that is set and not empty is the base URL.  Without
    it, outside production the base URL is [http://localhost:] and the
    port ([8080] when [PORT] is not set); in production without [HOST]
    it is [https://0.0.0.0], from the default of the host.  In every
    case without [BASE_URL] the result starts with [http]. *)
Theorem GetBaseURL_from_env (Atoi : string → option Z) (env : gmap string string)
    (requestHost : string) :
  let url := config.GetBaseURL (config.LoadConfig Atoi env) requestHost in
  let no_base := env !! "BASE_URL" = None ∨ env !! "BASE_URL" = Some "" in
  (∀ base, env !! "BASE_URL" = Some base → base ≠ "" → url = base)
  ∧ (no_base → env !! "APP_ENV" ≠ Some "production" →
     url = "http://localhost:" +:+ config.getEnv env "PORT" "8080")
  ∧ (no_base → env !! "APP_ENV" = Some "production" → env !! "HOST" = None →
     url = "https://0.0.0.0")
  ∧ (no_base → strings.HasPrefix url "http" = true)
  ∧ (∀ otherHost, config.GetBaseURL (config.LoadConfig Atoi env) otherHost = url).
Proof.
  cbv zeta. unfold config.GetBaseURL, config.LoadConfig.
  cbn [config.App_BaseURL config.App_Env config.Server_Host config.Server_Port].
  assert (Hnb : env !! "BASE_URL" = None ∨ env !! "BASE_URL" = Some "" →
                String.eqb (config.getEnv env "BASE_URL" "") "" = true).
  { unfold config.getEnv. by intros [->| ->]. }
  split_and!.
  - intros base Hb Hne. unfold config.getEnv at 1 2. rewrite Hb.
    by destruct (String.eqb_spec base "").
  - intros Hno Hdev. rewrite (Hnb Hno). cbn [negb].
    unfold config.getEnv at 1.
    destruct (env !! "APP_ENV") as [e|]; [|done].
    destruct (String.eqb_spec e "production") as [->|]; [done|done].
  - intros Hno Hprod Hhost. rewrite (Hnb Hno). cbn [negb].
    unfold config.getEnv. by rewrite Hprod, Hhost.
  - intros Hno. rewrite (Hnb Hno). cbn [negb].
    destruct (String.eqb (config.getEnv env "APP_ENV" "development") "production"
              && negb (String.eqb (config.getEnv env "HOST" "0.0.0.0") "")); [|done].
    by destruct (strings.HasPrefix (config.getEnv env "HOST" "0.0.0.0") "http") eqn:Hp.
  - done.
Qed.

Lemma GetBaseURL_from_env_witness :
  config.GetBaseURL
    (config.LoadConfig decimal_Atoi {[ "BASE_URL" := "https://t.example.com" ]})
    "localhost:8080"
  = "https://t.example.com"
  ∧ config.GetBaseURL (config.LoadConfig decimal_Atoi {[ "APP_ENV" := "production" ]})
      "t.example.com"
    = "https://0.0.0.0".
Proof.
  destruct (GetBaseURL_from_env decimal_Atoi {[ "BASE_URL" := "https://t.example.com" ]}
              "localhost:8080") as (Hb & _).
  destruct (GetBaseURL_from_env decimal_Atoi {[ "APP_ENV" := "production" ]}
              "t.example.com") as (_ & _ & Hp & _).
  split.
  - apply Hb; [reflexivity | discriminate].
  - apply Hp; [by left | reflexivity | reflexivity].
Defined.


(** ** Matching a pattern *)

Module regexp_facts.

Import regexp.

Lemma append_empty (s1 s2 : string) : s1 +:+ s2 = "" → s1 = "" ∧ s2 = "".
Proof. by destruct s1, s2. Qed.

Lemma nullable_sound (r : Regexp) : nullable r = true → matches r "".
Proof.
  induction r as [| |p|r1 IH1 r2 IH2|r1 IH1 r2 IH2|r IH]; simpl; intros Hn; try done.
  - constructor.
  - apply andb_true_iff in Hn as [H1 H2].
    change "" with ("" +:+ ""). constructor; auto.
  - apply orb_true_iff in Hn as [H1|H2]; [apply matches_alt_l|apply matches_alt_r]; auto.
  - constructor.
Qed.

Lemma nullable_complete (r : Regexp) (s : string) :
  matches r s → s = "" → nullable r = true.
Proof.
  induction 1 as [|p a Hp|r1 r2 s1 s2 _ IH1 _ IH2|r1 r2 s _ IH|r1 r2 s _ IH
                 |r|r s1 s2 _ _ _ _]; intros Hs; simpl; try done.
  - apply append_empty in Hs as [-> ->]. by rewrite IH1, IH2.
  - by rewrite IH.
  - rewrite IH by done. apply orb_true_r.
Qed.

Lemma deriv_sound (a : ascii) (r : Regexp) (s : string) :
  matches (deriv a r) s → matches r (String a s).
Proof.
  revert s. induction r as [| |p|r1 IH1 r2 IH2|r1 IH1 r2 IH2|r IH]; simpl; intros s Hm.
  - inversion Hm.
  - inversion Hm.
  - destruct (p a) eqn:Hp; inversion Hm; subst. by constructor.
  - destruct (nullable r1) eqn:Hn.
    + inversion Hm as [| | |? ? ? Hl|? ? ? Hr| |]; subst.
      * inversion Hl as [| |? ? s1 s2 H1 H2| | | |]; subst.
        change (String a (s1 +:+ s2)) with (String a s1 +:+ s2).
        constructor; auto.
      * change (String a s) with ("" +:+ String a s).
        constructor; [by apply nullable_sound | auto].
    + inversion Hm as [| |? ? s1 s2 H1 H2| | | |]; subst.
      change (String a (s1 +:+ s2)) with (String a s1 +:+ s2).
      constructor; auto.
  - inversion Hm; subst; [apply matches_alt_l | apply matches_alt_r]; auto.
  - inversion Hm as [| |? ? s1 s2 H1 H2| | | |]; subst.
    change (String a (s1 +:+ s2)) with (String a s1 +:+ s2).
    constructor; auto.
Qed.

Lemma deriv_complete (r : Regexp) (s0 : string) :
  matches r s0 → ∀ a s, s0 = String a s → matches (deriv a r) s.
Proof.
  induction 1 as [|p b Hp|r1 r2 s1 s2 H1 IH1 H2 IH2|r1 r2 s0 _ IH|r1 r2 s0 _ IH
                 |r|r s1 s2 H1 IH1 H2 IH2]; intros a s Hs; simpl; try done.
  - injection Hs as -> <-. rewrite Hp. constructor.
  - destruct s1 as [|b s1].
    + simpl in Hs. rewrite (nullable_complete r1 "" H1 eq_refl).
      apply matches_alt_r. by apply IH2.
    + simpl in Hs. injection Hs as -> <-.
      assert (Hc : matches (Cat (deriv a r1) r2) (s1 +:+ s2))
        by (constructor; [by apply IH1 | done]).
      destruct (nullable r1); [by apply matches_alt_l | done].
  - apply matches_alt_l. by apply IH.
  - apply matches_alt_r. by apply IH.
  - destruct s1 as [|b s1].
    + simpl in Hs. by apply IH2.
    + simpl in Hs. injection Hs as -> <-.
      constructor; [by apply IH1 | done].
Qed.

(** [MatchString] decides the language of the pattern. *)
Lemma MatchString_matches (r : Regexp) (s : string) :
  MatchString r s = true ↔ matches r s.
Proof.
  revert r. induction s as [|a s IH]; intros r; simpl.
  - split; [apply nullable_sound | intros Hm; by eapply nullable_complete].
  - rewrite IH. split; [apply deriv_sound | intros Hm; by eapply deriv_complete].
Qed.

Lemma matches_cat_inv (r1 r2 : Regexp) (s : string) :
  matches (Cat r1 r2) s ↔ ∃ s1 s2, s = s1 +:+ s2 ∧ matches r1 s1 ∧ matches r2 s2.
Proof.
  split.
  - inversion 1; subst. eauto.
  - intros (s1 & s2 & -> & H1 & H2). by constructor.
Qed.

Lemma matches_class_inv (p : ascii → bool) (s : string) :
  matches (Class p) s ↔ ∃ a, s = String a "" ∧ p a = true.
Proof.
  split.
  - inversion 1; subst. eauto.
  - intros (a & -> & Hp). by constructor.
Qed.

Lemma all_chars_app (p : ascii → bool) (s1 s2 : string) :
  base64.all_chars p (s1 +:+ s2) = base64.all_chars p s1 && base64.all_chars p s2.
Proof. induction s1 as [|a s1 IH]; simpl; [done|]. by rewrite IH, andb_assoc. Qed.

Lemma matches_star_class (p : ascii → bool) (s : string) :
  matches (Star (Class p)) s ↔ base64.all_chars p s = true.
Proof.
  split.
  - intros Hm. remember (Star (Class p)) as r eqn:Hr.
    induction Hm as [| | | | |r|r s1 s2 H1 _ H2 IH2]; try discriminate Hr; [done|].
    injection Hr as ->. apply matches_class_inv in H1 as (a & -> & Hp).
    simpl. rewrite Hp. by apply IH2.
  - induction s as [|a s IH]; simpl; intros Hall; [constructor|].
    apply andb_true_iff in Hall as [Hp Hs].
    change (String a s) with (String a "" +:+ s).
    constructor; [by constructor | by apply IH].
Qed.

Lemma matches_plus_class (p : ascii → bool) (s : string) :
  matches (Plus (Class p)) s ↔ s ≠ "" ∧ base64.all_chars p s = true.
Proof.
  unfold Plus. rewrite matches_cat_inv. split.
  - intros (s1 & s2 & -> & (a & -> & Hp)%matches_class_inv & H2%matches_star_class).
    split; [done|]. simpl. by rewrite Hp.
  - intros [Hne Hall]. destruct s as [|a s]; [done|]. simpl in Hall.
    apply andb_true_iff in Hall as [Hp Hs].
    exists (String a ""), s. split_and!; [done|by constructor|by apply matches_star_class].
Qed.

Lemma matches_atleast2_class (p : ascii → bool) (s : string) :
  matches (AtLeast2 (Class p)) s
  ↔ (2 ≤ String.length s)%nat ∧ base64.all_chars p s = true.
Proof.
  unfold AtLeast2. rewrite matches_cat_inv. split.
  - intros (s1 & s2 & -> & (a & -> & Hp)%matches_class_inv & H2).
    apply matches_cat_inv in H2
      as (s3 & s4 & -> & (b & -> & Hq)%matches_class_inv & H4%matches_star_class).
    split; [simpl; lia|]. simpl. by rewrite Hp, Hq.
  - intros [Hlen Hall]. destruct s as [|a [|b s]]; simpl in Hlen; try lia.
    simpl in Hall. apply andb_true_iff in Hall as [Hp Hall].
    apply andb_true_iff in Hall as [Hq Hs].
    exists (String a ""), (String b s). split_and!; [done|by constructor|].
    apply matches_cat_inv. exists (String b ""), s.
    split_and!; [done|by constructor|by apply matches_star_class].
Qed.

End regexp_facts.

(** ** The validation of an address *)

Module validate_facts.

Import regexp gostrings utils_validate.

(** An accepted address, taken apart. *)
Lemma accepted_address (email : string) :
  ValidateEmail email = true →
  ∃ name domain tld,
    email = name +:+ "@" +:+ domain +:+ "." +:+ tld
    ∧ name ≠ "" ∧ base64.all_chars local_class name = true
    ∧ domain ≠ "" ∧ base64.all_chars domain_class domain = true
    ∧ (2 ≤ String.length tld)%nat ∧ base64.all_chars is_letter tld = true.
Proof.
  unfold ValidateEmail, emailRegex. rewrite regexp_facts.MatchString_matches.
  intros (name & s1 & -> & [Hn Hname]%regexp_facts.matches_plus_class & H1)
    %regexp_facts.matches_cat_inv.
  apply regexp_facts.matches_cat_inv in H1
    as (at_ & s2 & -> & (a & -> & Ha)%regexp_facts.matches_class_inv & H2).
  apply regexp_facts.matches_cat_inv in H2
    as (domain & s3 & -> & [Hd Hdomain]%regexp_facts.matches_plus_class & H3).
  apply regexp_facts.matches_cat_inv in H3
    as (dot & tld & -> & (b & -> & Hb)%regexp_facts.matches_class_inv
        & [Hl Htld]%regexp_facts.matches_atleast2_class).
  apply Ascii.eqb_eq in Ha as <-. apply Ascii.eqb_eq in Hb as <-.
  by exists name, domain, tld.
Qed.

Lemma class_excludes (p : ascii → bool) (s : string) (c : ascii) :
  base64.all_chars p s = true → p c = false → Count s c = O.
Proof.
  intros Hall Hc. induction s as [|a s IH]; [done|]. simpl in *.
  apply andb_true_iff in Hall as [Ha Hs].
  destruct (Ascii.eqb_spec a c) as [->|_]; [congruence|]. by apply IH.
Qed.

Lemma class_ascii (p : ascii → bool) (s : string) :
  (∀ a, p a = true → (nat_of_ascii a <? 128)%nat = true) →
  base64.all_chars p s = true → ascii_only s = true.
Proof.
  intros Hp Hall. induction s as [|a s IH]; [done|]. simpl in *.
  apply andb_true_iff in Hall as [Ha Hs]. by rewrite (Hp a Ha), IH.
Qed.

Lemma local_class_ascii (a : ascii) :
  local_class a = true → (nat_of_ascii a <? 128)%nat = true.
Proof.
  destruct a as [b0 b1 b2 b3 b4 b5 b6 b7].
  destruct b0, b1, b2, b3, b4, b5, b6, b7; by vm_compute.
Qed.

Lemma domain_class_ascii (a : ascii) :
  domain_class a = true → (nat_of_ascii a <? 128)%nat = true.
Proof.
  destruct a as [b0 b1 b2 b3 b4 b5 b6 b7].
  destruct b0, b1, b2, b3, b4, b5, b6, b7; by vm_compute.
Qed.

Lemma is_letter_ascii (a : ascii) :
  is_letter a = true → (nat_of_ascii a <? 128)%nat = true.
Proof.
  destruct a as [b0 b1 b2 b3 b4 b5 b6 b7].
  destruct b0, b1, b2, b3, b4, b5, b6, b7; by vm_compute.
Qed.

(** X20. [ValidateEmail] accepts exactly the strings of the form
    [name@domain.tld] with a name of one or more letters, digits and
    [._%+-], a domain of one or more letters, digits, dots and hyphens,
    and a last part of two or more letters. *)
Theorem ValidateEmail_shape (email : string) :
  ValidateEmail email = true
  ↔ ∃ name domain tld,
      email = name +:+ "@" +:+ domain +:+ "." +:+ tld
      ∧ name ≠ "" ∧ base64.all_chars local_class name = true
      ∧ domain ≠ "" ∧ base64.all_chars domain_class domain = true
      ∧ (2 ≤ String.length tld)%nat ∧ base64.all_chars is_letter tld = true.
Proof.
  split; [apply accepted_address|].
  intros (name & domain & tld & -> & Hn & Hname & Hd & Hdomain & Hl & Htld).
  unfold ValidateEmail, emailRegex. apply regexp_facts.MatchString_matches.
  apply regexp_facts.matches_cat_inv. exists name, ("@" +:+ domain +:+ "." +:+ tld).
  split_and!; [done|by apply regexp_facts.matches_plus_class|].
  apply regexp_facts.matches_cat_inv. exists "@", (domain +:+ "." +:+ tld).
  split_and!; [done|by constructor|].
  apply regexp_facts.matches_cat_inv. exists domain, ("." +:+ tld).
  split_and!; [done|by apply regexp_facts.matches_plus_class|].
  apply regexp_facts.matches_cat_inv. exists ".", tld.
  split_and!; [done|by constructor|by apply regexp_facts.matches_atleast2_class].
Qed.

(** X21. What an accepted address is never: it has exactly one ["@"],
    so [ExtractDomain] finds its domain, which is not empty and holds a
    dot; it holds no space and no byte from 0x80 on; and it has at
    least six bytes. *)
Theorem ValidateEmail_accepted (email : string) :
  ValidateEmail email = true →
  Count email "@" = 1%nat
  ∧ utils_email.ExtractDomain email ≠ ""
  ∧ (1 ≤ Count (utils_email.ExtractDomain email) ".")%nat
  ∧ Count email " " = O
  ∧ ascii_only email = true
  ∧ (6 ≤ String.length email)%nat.
Proof.
  intros (name & domain & tld & -> & Hn & Hname & Hd & Hdomain & Hl & Htld)
    %accepted_address.
  assert (Hrest : Count (domain +:+ "." +:+ tld) "@" = O).
  { rewrite !split_facts.Count_app.
    rewrite (class_excludes domain_class domain "@"), (class_excludes is_letter tld "@")
      by done. done. }
  assert (Hdom : utils_email.ExtractDomain (name +:+ "@" +:+ domain +:+ "." +:+ tld)
                 = domain +:+ "." +:+ tld).
  { apply email_facts.ExtractDomain_app; [|done].
    by apply (class_excludes local_class). }
  rewrite Hdom. split_and!.
  - rewrite !split_facts.Count_app.
    rewrite (class_excludes local_class name "@"), (class_excludes domain_class domain "@"),
      (class_excludes is_letter tld "@") by done. done.
  - by destruct domain.
  - rewrite !split_facts.Count_app. simpl. lia.
  - rewrite !split_facts.Count_app.
    rewrite (class_excludes local_class name " "), (class_excludes domain_class domain " "),
      (class_excludes is_letter tld " ") by done. done.
  - rewrite !email_facts.ascii_only_app.
    rewrite (class_ascii local_class name local_class_ascii Hname),
      (class_ascii domain_class domain domain_class_ascii Hdomain),
      (class_ascii is_letter tld is_letter_ascii Htld). done.
  - rewrite !split_facts.string_length_app.
    destruct name; [done|]. destruct domain; [done|]. simpl. lia.
Qed.

Lemma ValidateEmail_accepted_witness :
  utils_email.ExtractDomain "alice@example.com" ≠ ""
  ∧ Count "alice@example.com" "@" = 1%nat.
Proof.
  destruct (ValidateEmail_accepted "alice@example.com") as (Hc & Hd & _);
    [reflexivity|]. split; [exact Hd | exact Hc].
Defined.

End validate_facts.

(** ** The handlers of the API *)

Module server_facts.

Import server.

Lemma first_invalid_spec (to : list string) :
  match first_invalid to with
  | Some email =>
      ∃ valid rest, to = valid ++ email :: rest
                    ∧ Forall (λ e, utils_validate.ValidateEmail e = true) valid
                    ∧ utils_validate.ValidateEmail email = false
  | None => Forall (λ e, utils_validate.ValidateEmail e = true) to
  end.
Proof.
  induction to as [|email to IH]; simpl; [constructor|].
  destruct (utils_validate.ValidateEmail email) eqn:Hv; simpl.
  - destruct (first_invalid to) as [bad|].
    + destruct IH as (valid & rest & -> & Hvalid & Hbad).
      exists (email :: valid), rest. split_and!; [done|by constructor|done].
    + by constructor.
  - by exists [], to.
Qed.

(** X22. [sendEmail] answers 400 as soon as one recipient is not an
    address, naming the first such recipient, and then nothing has been
    handed to the transport and the registry is as it was.  It answers
    200 only when every recipient is an address and the message was
    sent, and then the identifier in the answer is registered.  With
    any other answer the registry is as it was. *)
Theorem sendEmail_answers (cfg : config.Config) (t : Tracker) (world : service.SendWorld)
    (ctx : context.Context) (req : service.EmailRequest) (baseURL : string) :
  let '(resp, t', sent) := sendEmail cfg t world ctx (inr req) baseURL in
  (∀ valid email rest,
      service.req_To req = valid ++ email :: rest →
      Forall (λ e, utils_validate.ValidateEmail e = true) valid →
      utils_validate.ValidateEmail email = false →
      resp = {| resp_status := StatusBadRequest;
                resp_body := JSONObject {[ "error" := "Invalid email: " +:+ email ]} |}
      ∧ t' = t ∧ sent = None)
  ∧ (resp_status resp = StatusOK →
     Forall (λ e, utils_validate.ValidateEmail e = true) (service.req_To req)
     ∧ ∃ id, resp_body resp
             = JSONObject {[ "message" := "Email sent successfully";
                             "tracking_id" := id; "base_url" := baseURL;
                             "environment" := config.App_Env cfg ]}
             ∧ is_Some (trackingData t' !! id) ∧ is_Some sent)
  ∧ (resp_status resp ≠ StatusOK → t' = t).
Proof.
  unfold sendEmail.
  pose proof (first_invalid_spec (service.req_To req)) as Hfi.
  destruct (first_invalid (service.req_To req)) as [bad|].
  - destruct Hfi as (valid0 & rest0 & Hto & Hvalid0 & Hbad).
    split_and!; [|done|done].
    intros valid email rest Hto' Hvalid Hinvalid.
    assert (bad = email) as ->; [|done].
    rewrite Hto in Hto'. clear Hto. revert valid Hto' Hvalid.
    induction Hvalid0 as [|e0 valid0 He0 _ IH]; intros [|e valid] Hto' Hvalid;
      simpl in Hto'.
    + by injection Hto' as -> _.
    + injection Hto' as -> _. apply Forall_cons in Hvalid as [? _]. congruence.
    + injection Hto' as -> _. congruence.
    + injection Hto' as -> Hto'. apply Forall_cons in Hvalid as [_ Hvalid].
      by apply (IH valid).
  - pose proof (send_facts.SendTrackedEmail_cases cfg t world ctx req baseURL) as Hcases.
    cbv zeta in Hcases.
    destruct (service.sr_err (service.SendTrackedEmail cfg t world ctx req baseURL))
      as [err|] eqn:Herr.
    + destruct Hcases as [(e & _ & Ht & _)|(b & tmpl & px & _ & _ & _ & _ & ? & _)];
        [|done].
      split_and!; [|done|done].
      intros valid email rest Hto Hvalid Hinvalid. rewrite Hto in Hfi.
      apply Forall_app in Hfi as [_ Hfi]. apply Forall_cons in Hfi as [? _]. congruence.
    + destruct Hcases as [(e & ? & _)|(b & tmpl & px & _ & _ & _ & Hid & _ & Hsent & Ht)];
        [done|].
      split_and!; [|split; [done|]|done].
      * intros valid email rest Hto Hvalid Hinvalid. rewrite Hto in Hfi.
        apply Forall_app in Hfi as [_ Hfi]. apply Forall_cons in Hfi as [? _].
        congruence.
      * exists (service.sr_trackingID (service.SendTrackedEmail cfg t world ctx req baseURL)).
        split_and!; [done| |by rewrite Hsent].
        rewrite Ht, Hid, RegisterEmail_lookup, decide_True by done. by eexists.
Qed.

Lemma sendEmail_answers_witness :
  (sendEmail sender_config opted_in answering_world context.Background
     (inr bad_request) "http://localhost:8080")
  = ({| resp_status := StatusBadRequest;
        resp_body :=
          JSONObject {[ "error" := "Invalid email: " +:+ "carol at example.com" ]} |},
     opted_in, None).
Proof.
  pose proof (sendEmail_answers sender_config opted_in answering_world
                context.Background bad_request "http://localhost:8080") as Hs.
  destruct (sendEmail sender_config opted_in answering_world context.Background
              (inr bad_request) "http://localhost:8080") as [[resp t'] sent].
  destruct Hs as (Hbad & _).
  destruct (Hbad ["bob@example.com"] "carol at example.com" ["x"]) as (-> & -> & ->);
    [reflexivity | by repeat constructor | reflexivity | reflexivity].
Defined.

(** X23. [getTrackingInfo] answers 404 exactly when the identifier has
    no event: for an identifier never seen, and as well for a message
    that is registered and was never opened.  After an open it answers
    200 with the event of that open. *)
Theorem getTrackingInfo_answers `{GoLib} (t : Tracker) (trackingID : string) :
  (resp_status (getTrackingInfo t trackingID) = StatusNotFound
   ↔ GetAllTrackingEvents t trackingID = [])
  ∧ (∀ email, getTrackingInfo (RegisterEmail t email trackingID) trackingID
              = getTrackingInfo t trackingID)
  ∧ (∀ sender w r baseURL world,
       ∃ event,
         getTrackingInfo
           (res_tracker (TrackEmailOpen sender t w r trackingID baseURL world))
           trackingID
         = {| resp_status := StatusOK; resp_body := JSONEvent event |}
         ∧ TrackingID event = trackingID ∧ OpenedAt event = now world).
Proof.
  split_and!.
  - unfold getTrackingInfo. rewrite GetTrackingStats_last.
    destruct (GetAllTrackingEvents t trackingID) as [|e es] eqn:Hall.
    + done.
    + rewrite last_cons_default. by split.
  - done.
  - intros sender w r baseURL world.
    exists (new_event r trackingID baseURL world (owner_of t trackingID)).1.
    unfold getTrackingInfo.
    rewrite TrackEmailOpen_tracker, GetTrackingStats_last, GetAllTrackingEvents_append,
      last_snoc.
    destruct (new_event_fields r trackingID baseURL world (owner_of t trackingID))
      as (Hid & _ & Hat & _).
    by split_and!.
Qed.

End server_facts.
